(** * Deployify: the deployment engine, embedded and checked against its specification

    The development follows the NestJS backend: the container builder
    ([container.service.ts]), the provider selector
    ([provider-decision.service.ts]), the deployment store
    ([deployment.service.ts]), the worker pipeline ([deployment.worker.ts]),
    the credential vault ([credential.service.ts]) and the log bus
    ([logging.service.ts], [logs.controller.ts]).

    Conventions of the embedding:
    - a JavaScript string is a [string] (for the vault: its UTF-8 bytes);
    - a value that may be [undefined] is an [option];
    - a promise that may reject is a sum, the right side holding the
      [message] of the thrown [Error];
    - calls into external systems (git, the container daemon, the file
      system, the database, the provider APIs) are oracles: their outcomes
      are inputs of the model, their invocations are recorded in a trace. *)

From Stdlib Require Import String Ascii List Bool Arith ZArith Lia DecimalString.
From stdpp Require Import base option list gmap strings.

Open Scope string_scope.
Open Scope list_scope.
Open Scope nat_scope.

(** ** JavaScript string helpers *)

Module Js.

(** [s.startsWith(p)]. *)
Fixpoint startsWith (s p : string) {struct p} : bool :=
  match p, s with
  | EmptyString, _ => true
  | String a p', String b s' => Ascii.eqb a b && startsWith s' p'
  | String _ _, EmptyString => false
  end.

(** [s.includes(sub)]: [sub] occurs in [s] at some offset. *)
Fixpoint includes (s sub : string) : bool :=
  startsWith s sub ||
  match s with
  | EmptyString => false
  | String _ s' => includes s' sub
  end.

(** [o || d] for an optional string: [undefined] and the empty string are falsy. *)
Definition orDefault (o : option string) (d : string) : string :=
  match o with
  | Some s => if String.eqb s "" then d else s
  | None => d
  end.

(** [!o] for an optional string. *)
Definition falsy (o : option string) : bool :=
  match o with
  | Some s => String.eqb s ""
  | None => true
  end.

(** Template rendering of a non-negative integer. *)
Definition showNat (n : nat) : string :=
  NilZero.string_of_uint (Nat.to_uint n).

(** [xs.join(sep)]. *)
Fixpoint join (sep : string) (xs : list string) : string :=
  match xs with
  | [] => ""
  | [x] => x
  | x :: rest => x +:+ sep +:+ join sep rest
  end.

Lemma startsWith_app (p t : string) : startsWith (p +:+ t) p = true.
Proof.
  induction p as [|a p IH]; simpl; [done|].
  by rewrite Ascii.eqb_refl.
Qed.

Lemma includes_here (p t : string) : includes (p +:+ t) p = true.
Proof.
  destruct (p +:+ t) eqn:E; simpl; rewrite <- E, startsWith_app; done.
Qed.

Lemma includes_later (a s sub : string) :
  includes s sub = true → includes (a +:+ s) sub = true.
Proof.
  intros H. induction a as [|c a IH]; [exact H|].
  change (includes (String c (a +:+ s)) sub = true).
  cbn [includes]. rewrite IH. apply orb_true_r.
Qed.

(** A string that is spliced into a message occurs in the message. *)
Lemma includes_mid (a m b : string) : includes (a +:+ m +:+ b) m = true.
Proof. apply includes_later, includes_here. Qed.

Lemma includes_end (a m : string) : includes (a +:+ m) m = true.
Proof.
  apply includes_later. pose proof (includes_here m "") as H.
  replace (m +:+ "") with m in H; [exact H|].
  clear. induction m as [|c m IH]; [done|].
  change (String c m = String c (m +:+ "")). by f_equal.
Qed.

End Js.

(** ** Container builder: [container.service.ts] *)

Module Container.

(** *** [cloneRepository] *)

(** What the clone protocol does to the outside world, in program order.
    [GitClone branch args] is one call of [git.clone(repoUrl, workspaceDir, args)]. *)
Inductive cloneEvent :=
| FsMkdir (dir : string)
| FsRm (dir : string)
| GitClone (branch : option string) (args : list string).

(** The options array handed to [git.clone]. *)
Definition cloneArgs (branch : option string) : list string :=
  match branch with
  | Some b => ["--branch"; b; "--depth"; "1"]
  | None => ["--depth"; "1"]
  end.

(** Outcome of the [n]-th call of [git.clone] in one run: [None] when it
    resolves, [Some message] when it rejects.  The file-system calls of the
    protocol ([mkdir], [rm] with [force]) are taken to succeed; [fs.access]
    on the freshly named workspace rejects, so the pre-existing-directory
    branch is not entered. *)
Definition gitOracle := nat → list string → option string.

Definition commonBranches : list string := ["main"; "master"; "develop"; "dev"].

(** [branch !== 'main' ? commonBranches : ['master', 'develop', 'dev']] *)
Definition branchesToTry (branch : string) : list string :=
  if negb (String.eqb branch "main") then commonBranches
  else ["master"; "develop"; "dev"].

(** The [for (const tryBranch of branchesToTry)] loop; [n] numbers the
    next [git.clone] call.  Returns the events and whether a clone resolved. *)
Fixpoint tryBranches (git : gitOracle) (dir : string) (n : nat)
    (branches : list string) : list cloneEvent * bool :=
  match branches with
  | [] => ([], false)
  | b :: rest =>
      match git n (cloneArgs (Some b)) with
      | None => ([FsMkdir dir; GitClone (Some b) (cloneArgs (Some b))], true)
      | Some _ =>
          let '(ev, ok) := tryBranches git dir (S n) rest in
          (FsMkdir dir :: GitClone (Some b) (cloneArgs (Some b)) :: FsRm dir :: ev, ok)
      end
  end.

Definition workspacePath (workspaceBase workspaceId : string) : string :=
  workspaceBase +:+ "/" +:+ workspaceId.

(** [cloneRepository(repoUrl, branch = 'main')]: the events and either the
    workspace directory (resolved) or the message of the thrown error. *)
Definition cloneRepository (git : gitOracle) (workspaceBase workspaceId : string)
    (branchArg : option string) : list cloneEvent * (string + string) :=
  let branch := match branchArg with Some b => b | None => "main" end in
  let dir := workspacePath workspaceBase workspaceId in
  let first := [FsMkdir workspaceBase; FsMkdir dir; GitClone (Some branch) (cloneArgs (Some branch))] in
  match git 0 (cloneArgs (Some branch)) with
  | None => (first, inl dir)
  | Some branchError =>
      let '(ev, ok) := tryBranches git dir 1 (branchesToTry branch) in
      if ok then (first ++ FsRm dir :: ev, inl dir)
      else
        let final := [FsMkdir dir; GitClone None (cloneArgs None)] in
        match git (S (length (branchesToTry branch))) (cloneArgs None) with
        | None => (first ++ FsRm dir :: ev ++ final, inl dir)
        | Some finalError =>
            (first ++ FsRm dir :: ev ++ final ++ [FsRm dir],
             inr ("Failed to clone repository: " +:+
                  ("Unable to clone repository. Original error: " +:+ branchError +:+
                   ", Final error: " +:+ finalError)))
        end
  end.

(** The branches handed to [git.clone], in call order ([None]: no branch). *)
Definition attempts (ev : list cloneEvent) : list (option string) :=
  omap (λ e, match e with GitClone b _ => Some b | _ => None end) ev.

(** Every clone is shallow. *)
Definition shallow (e : cloneEvent) : bool :=
  match e with
  | GitClone _ args =>
      match reverse args with
      | "1" :: "--depth" :: _ => true
      | _ => false
      end
  | _ => true
  end.

(** No clone runs into the leftovers of a failed one: between two clones the
    workspace is removed.  [dirty] says a clone ran since the last wipe. *)
Fixpoint wipedBetween (dirty : bool) (ev : list cloneEvent) : bool :=
  match ev with
  | [] => true
  | GitClone _ _ :: rest => negb dirty && wipedBetween true rest
  | FsRm _ :: rest => wipedBetween false rest
  | FsMkdir _ :: rest => wipedBetween dirty rest
  end.

(** The fallback order as the specification words it: the four common names
    without the branch already tried. *)
Definition fallbackOrder_spec (branch : string) : list string :=
  filter (λ b, b ≠ branch) commonBranches.

Definition attempts_spec (branch : string) : list (option string) :=
  Some branch :: (Some <$> fallbackOrder_spec branch) ++ [None].

(** **** The fallback loop *)

Section CloneLoop.
Context (git : gitOracle) (dir : string).

Lemma tryBranches_prefix n bs :
  attempts (tryBranches git dir n bs).1 `prefix_of` (Some <$> bs).
Proof.
  revert n. induction bs as [|b bs IH]; intros n; simpl; [done|].
  destruct (git n _).
  - specialize (IH (S n)). destruct (tryBranches git dir (S n) bs) as [ev ok].
    simpl in *. by apply prefix_cons.
  - simpl. apply prefix_cons, prefix_nil.
Qed.

(** The loop gives up only after trying every name, wiping after each. *)
Lemma tryBranches_exhausted n bs :
  (tryBranches git dir n bs).2 = false →
  attempts (tryBranches git dir n bs).1 = Some <$> bs
  ∧ ∀ rest, wipedBetween false ((tryBranches git dir n bs).1 ++ rest)
            = wipedBetween false rest.
Proof.
  revert n. induction bs as [|b bs IH]; intros n; simpl; [done|].
  destruct (git n _); [|done].
  specialize (IH (S n)). destruct (tryBranches git dir (S n) bs) as [ev ok].
  simpl in *. intros Hok. destruct (IH Hok) as [-> Hw]. split; [done|].
  intros rest. apply Hw.
Qed.

(** The loop stops at the first clone that resolves. *)
Lemma tryBranches_resolved n bs :
  (tryBranches git dir n bs).2 = true →
  wipedBetween false (tryBranches git dir n bs).1 = true
  ∧ ∃ k b, git k (cloneArgs (Some b)) = None
           ∧ last (attempts (tryBranches git dir n bs).1) = Some (Some b).
Proof.
  revert n. induction bs as [|b bs IH]; intros n; simpl; [done|].
  destruct (git n _) eqn:Hg.
  - specialize (IH (S n)). destruct (tryBranches git dir (S n) bs) as [ev ok].
    simpl in *. intros Hok. destruct (IH Hok) as (Hw & k & b' & Hk & Hl).
    split; [done|]. exists k, b'. split; [done|].
    destruct (attempts ev); [done|]. exact Hl.
  - intros _. split; [done|]. by exists n, b.
Qed.

Lemma tryBranches_shallow n bs :
  forallb shallow (tryBranches git dir n bs).1 = true.
Proof.
  revert n. induction bs as [|b bs IH]; intros n; simpl; [done|].
  destruct (git n _); [|done].
  specialize (IH (S n)). by destruct (tryBranches git dir (S n) bs).
Qed.

End CloneLoop.

Lemma attempts_app ev1 ev2 : attempts (ev1 ++ ev2) = attempts ev1 ++ attempts ev2.
Proof. apply omap_app. Qed.

(** An oracle under which every clone fails, the [n]-th with message [en]. *)
Definition unreachable : gitOracle := λ n _, Some ("e" +:+ Js.showNat n).

(** The order the code follows: after a failed clone of the requested
    branch it tries [branchesToTry], that is [main], [master], [develop],
    [dev] without [main] when [main] was requested, then clones without a
    branch.  Every clone is shallow, the workspace is wiped between
    attempts, and when every clone fails the message carries the first and
    the last underlying messages. *)
Lemma cloneRepository_fallback (git : gitOracle) (base wsId branch : string) :
  let run := cloneRepository git base wsId (Some branch) in
  let candidates :=
    Some branch
    :: (Some <$> (if String.eqb branch "main"
                  then ["master"; "develop"; "dev"]
                  else ["main"; "master"; "develop"; "dev"]))
    ++ [None] in
  attempts run.1 `prefix_of` candidates
  ∧ forallb shallow run.1 = true
  ∧ wipedBetween false run.1 = true
  ∧ (∀ d, run.2 = inl d →
       d = workspacePath base wsId
       ∧ ∃ k b, git k (cloneArgs b) = None ∧ last (attempts run.1) = Some b)
  ∧ (∀ msg, run.2 = inr msg →
       attempts run.1 = candidates
       ∧ ∃ e0 ef, git 0 (cloneArgs (Some branch)) = Some e0
                  ∧ git (length candidates - 1) (cloneArgs None) = Some ef
                  ∧ Js.includes msg e0 = true ∧ Js.includes msg ef = true)
  ∧ ((∀ n args, is_Some (git n args)) → ∃ msg, run.2 = inr msg).
Proof.
  intros run candidates. subst run candidates. unfold cloneRepository.
  set (dir := workspacePath base wsId).
  assert (Hbr : branchesToTry branch
                = if String.eqb branch "main" then ["master"; "develop"; "dev"]
                  else ["main"; "master"; "develop"; "dev"]).
  { unfold branchesToTry, commonBranches. by destruct (String.eqb branch "main"). }
  rewrite <- Hbr. clear Hbr. set (bs := branchesToTry branch).
  destruct (git 0 (cloneArgs (Some branch))) as [e0|] eqn:H0; cbn [fst snd].
  2:{ split_and!.
      - apply prefix_cons, prefix_nil.
      - done.
      - done.
      - intros d [= <-]. split; [done|]. by exists 0, (Some branch).
      - done.
      - intros Hall. destruct (Hall 0 (cloneArgs (Some branch))) as [? ?]. congruence. }
  pose proof (tryBranches_prefix git dir 1 bs) as Hp.
  pose proof (tryBranches_exhausted git dir 1 bs) as He.
  pose proof (tryBranches_resolved git dir 1 bs) as Hr.
  pose proof (tryBranches_shallow git dir 1 bs) as Hs.
  destruct (tryBranches git dir 1 bs) as [ev ok]. cbn [fst snd] in *.
  assert (Hlen : S (length bs) = length (Some branch :: (Some <$> bs) ++ [None]) - 1).
  { cbn [length]. rewrite length_app, length_fmap. simpl. lia. }
  destruct ok.
  - destruct (Hr eq_refl) as (Hw & k & b & Hk & Hl). cbn [fst snd].
    split_and!.
    + simpl. apply prefix_cons. by apply prefix_app_r.
    + simpl. exact Hs.
    + simpl. exact Hw.
    + intros d [= <-]. split; [done|]. exists k, (Some b). split; [done|].
      simpl. destruct (attempts ev); done.
    + done.
    + intros Hall. destruct (Hall k (cloneArgs (Some b))) as [? ?]. congruence.
  - destruct (He eq_refl) as [Ha Hw]. rewrite <- Hlen.
    destruct (git (S (length bs)) (cloneArgs None)) as [ef|] eqn:Hf; cbn [fst snd].
    + split_and!.
      * simpl. rewrite !attempts_app, Ha. simpl. done.
      * simpl. rewrite forallb_app, Hs. done.
      * simpl. rewrite Hw. done.
      * done.
      * intros msg [= <-]. split.
        { simpl. rewrite !attempts_app, Ha. done. }
        exists e0, ef. split_and!; [done|done| |].
        -- apply Js.includes_later.
           apply (Js.includes_mid "Unable to clone repository. Original error: " e0).
        -- apply Js.includes_later, Js.includes_later, Js.includes_later.
           apply Js.includes_end.
      * eauto.
    + split_and!.
      * simpl. rewrite !attempts_app, Ha. simpl. done.
      * simpl. rewrite forallb_app, Hs. done.
      * simpl. rewrite Hw. done.
      * intros d [= <-]. split; [done|]. exists (S (length bs)), None. split; [done|].
        simpl. rewrite attempts_app, Ha. simpl.
        rewrite app_comm_cons. apply last_snoc.
      * done.
      * intros Hall. destruct (Hall (S (length bs)) (cloneArgs None)) as [? ?]. congruence.
Qed.

(** **** The requested branch in the fallback list *)

(** While the clones fail the loop walks down its list. *)
Lemma tryBranches_failing (git : gitOracle) (dir : string) (pre rest : list string) :
  ∀ n, (∀ k args, n ≤ k < n + length pre → is_Some (git k args)) →
       attempts (tryBranches git dir n (pre ++ rest)).1
       = (Some <$> pre) ++ attempts (tryBranches git dir (n + length pre) rest).1.
Proof.
  induction pre as [|b pre IH]; intros n Hfail.
  - simpl. by rewrite Nat.add_0_r.
  - cbn [app tryBranches].
    destruct (Hfail n (cloneArgs (Some b))) as [e He]; [simpl; lia|]. rewrite He.
    specialize (IH (S n)).
    destruct (tryBranches git dir (S n) (pre ++ rest)) as [ev ok]. cbn [fst] in *.
    change (attempts (FsMkdir dir :: GitClone (Some b) (cloneArgs (Some b)) :: FsRm dir :: ev))
      with (Some b :: attempts ev).
    rewrite IH.
    + rewrite fmap_cons. cbn [length app]. by rewrite Nat.add_succ_r.
    + intros k args Hk. apply Hfail. simpl. lia.
Qed.

(** A name at the head of the list is cloned, whatever comes of it. *)
Lemma tryBranches_first (git : gitOracle) (dir : string) (n : nat) (b : string)
    (rest : list string) :
  ∃ more, attempts (tryBranches git dir n (b :: rest)).1 = Some b :: more.
Proof.
  cbn [tryBranches]. destruct (git n _).
  - destruct (tryBranches git dir (S n) rest) as [ev ok]. by eexists.
  - by eexists.
Qed.

Lemma cloneRepository_attempts (git : gitOracle) (base wsId branch e0 : string) :
  git 0 (cloneArgs (Some branch)) = Some e0 →
  ∃ final,
    attempts (cloneRepository git base wsId (Some branch)).1
    = Some branch
      :: attempts (tryBranches git (workspacePath base wsId) 1 (branchesToTry branch)).1
      ++ final.
Proof.
  intros H0. unfold cloneRepository. rewrite H0.
  destruct (tryBranches _ _ _ _) as [ev [|]]; cbn [fst].
  - exists []. simpl. by rewrite app_nil_r.
  - destruct (git _ (cloneArgs None)); exists [None]; cbn [fst]; simpl;
      by rewrite !attempts_app.
Qed.

(** C5 fails on the code: the builder does not skip the branch already
    tried.  Whenever the requested branch is one of the common names other
    than [main] and the clones up to its turn in the list fail, that branch
    is cloned a second time, so the clones made are not an initial segment
    of the order the specification gives.  Only a requested [main] is
    skipped: the guard [branch !== 'main'] names [main] where it should name
    the requested branch. *)
Theorem cloneRepository_clones_requested_branch_twice (git : gitOracle)
    (base wsId branch : string) (before after : list string) :
  commonBranches = before ++ branch :: after →
  branch ≠ "main" →
  (∀ n args, n ≤ length before → is_Some (git n args)) →
  let run := cloneRepository git base wsId (Some branch) in
  (Some branch :: (Some <$> before) ++ [Some branch]) `prefix_of` attempts run.1
  ∧ ¬ attempts run.1 `prefix_of` attempts_spec branch
  ∧ attempts (cloneRepository git base wsId (Some "main")).1 `prefix_of` attempts_spec "main".
Proof.
  intros Hsplit Hne Hfail run.
  assert (Htwice : (Some branch :: (Some <$> before) ++ [Some branch])
                     `prefix_of` attempts run.1).
  { subst run.
    destruct (Hfail 0 (cloneArgs (Some branch))) as [e0 He0]; [lia|].
    destruct (cloneRepository_attempts git base wsId branch e0 He0) as [final ->].
    assert (branchesToTry branch = commonBranches) as ->.
    { unfold branchesToTry. by destruct (String.eqb_spec branch "main"). }
    rewrite Hsplit, tryBranches_failing by (intros k args Hk; apply Hfail; lia).
    destruct (tryBranches_first git (workspacePath base wsId) (1 + length before)
                branch after) as [more ->].
    exists (more ++ final). simpl. f_equal. by rewrite <- !app_assoc. }
  split_and!.
  - exact Htwice.
  - intros Hspec.
    destruct (transitivity Htwice Hspec) as [k Hk]. clear - Hsplit Hne Hk.
    unfold commonBranches in Hsplit.
    destruct before as [|b1 [|b2 [|b3 [|b4 before]]]]; simplify_eq/=;
      try (by vm_compute in Hk).
    by destruct before.
  - by destruct (cloneRepository_fallback git base wsId "main") as [Hmain _].
Qed.

(** The divergence on a repository that cannot be reached, for the
    requested branch [master]: the clones are [master], [main], [master], ... *)
Lemma cloneRepository_clones_requested_branch_twice_witness :
  let run := cloneRepository unreachable "/tmp/deployify-workspaces" "workspace_1"
               (Some "master") in
  (Some "master" :: (Some <$> ["main"]) ++ [Some "master"]) `prefix_of` attempts run.1
  ∧ ¬ attempts run.1 `prefix_of` attempts_spec "master"
  ∧ attempts (cloneRepository unreachable "/tmp/deployify-workspaces" "workspace_1"
                (Some "main")).1 `prefix_of` attempts_spec "main".
Proof.
  apply (cloneRepository_clones_requested_branch_twice unreachable
           "/tmp/deployify-workspaces" "workspace_1" "master" ["main"] ["develop"; "dev"]).
  - reflexivity.
  - discriminate.
  - intros n args _. vm_compute. eauto.
Defined.

(** *** [buildWithLanguageContainer] *)

(** [DetectedStack] of [common/types], with the fields the builder reads. *)
Inductive stackType := TStatic | TSpa | TSsr | TApi | TFullstack | TContainer.
Inductive packageManagerKind := Npm | Yarn | Pnpm | Bun.

Record DetectedStack := {
  framework : option string;
  type : stackType;
  packageManager : packageManagerKind;
  hasDockerfile : bool;
  distDir : option string;
  buildCmd : option string;
  dependencyCount : option nat;
}.

Record BuildResult := {
  success : bool;
  artifactPath : option string;
  error : option string;
  imageId : option string;
}.

(** What the builder asks of the container daemon and what it reports
    through [onLog], in program order. *)
Inductive dockerEvent :=
| ImageInspect (image : string)
| ImagePull (image : string)
| ImageBuild (context tag : string)
| ContainerCreate (image : string) (cmd binds : list string) (memory cpuShares : N)
| ContainerAttach
| ContainerStart
| ContainerWait
| ContainerRemove
| OnLog (level message : string).

(** Outcomes of the daemon calls of one build ([Some message]: the call
    rejects), the chunks the container prints (trimmed), and whether the
    build directory exists afterwards. *)
Record dockerOracle := {
  inspectImage : option string;
  pullImage : option string;
  createContainer : option string;
  attachContainer : option string;
  startContainer : option string;
  waitContainer : string + nat;
  containerOutput : list string;
  distDirExists : bool;
  removeContainer : option string;
  buildImage : option string;
  buildStream : list string;
}.

Definition toLowerAscii (c : ascii) : ascii :=
  let n := nat_of_ascii c in
  if (65 <=? n) && (n <=? 90) then ascii_of_nat (n + 32) else c.

Fixpoint toLowerCase (s : string) : string :=
  match s with
  | EmptyString => EmptyString
  | String c s' => String (toLowerAscii c) (toLowerCase s')
  end.

Definition getBuildImage (detectedStack : DetectedStack) : string :=
  match type detectedStack with
  | TStatic | TSpa | TSsr => "node:18-alpine"
  | TApi =>
      match framework detectedStack with
      | Some f =>
          if Js.includes (toLowerCase f) "python" then "python:3.11-alpine"
          else "node:18-alpine"
      | None => "node:18-alpine"
      end
  | _ => "node:18-alpine"
  end.

Definition getBuildCommands (detectedStack : DetectedStack) : list string :=
  let install :=
    match packageManager detectedStack with
    | Npm => "npm ci --production=false"
    | Yarn => "yarn install --frozen-lockfile"
    | Pnpm => "npm install -g pnpm && pnpm install"
    | Bun => "npm install -g bun && bun install"
    end in
  install ::
  match buildCmd detectedStack with
  | Some c => if String.eqb c "" then [] else [c]
  | None => []
  end.

(** [createArtifact]: the build directory when it exists, else the workspace root. *)
Definition createArtifact (distExists : bool) (workspaceDir : string)
    (detectedStack : DetectedStack) : string :=
  let dist := Js.orDefault (distDir detectedStack) "dist" in
  if distExists then workspaceDir +:+ "/" +:+ dist else workspaceDir.

(** [pullImageIfNeeded]: events, and the message when the pull rejects. *)
Definition pullImageIfNeeded (o : dockerOracle) (imageName : string)
    : list dockerEvent * option string :=
  match inspectImage o with
  | None =>
      ([ImageInspect imageName;
        OnLog "info" ("Using existing Docker image: " +:+ imageName)], None)
  | Some _ =>
      let pre := [ImageInspect imageName;
                  OnLog "info" ("Pulling Docker image: " +:+ imageName +:+ "...");
                  ImagePull imageName] in
      match pullImage o with
      | Some e => (pre, Some e)
      | None =>
          (pre ++ [OnLog "info" ("Successfully pulled Docker image: " +:+ imageName)],
           None)
      end
  end.

Definition failed (msg : string) : BuildResult :=
  {| success := false; artifactPath := None; error := Some msg; imageId := None |}.

(** The [catch (error)] of [buildWithLanguageContainer]. *)
Definition buildCaught (ev : list dockerEvent) (msg : string)
    : list dockerEvent * BuildResult :=
  (ev ++ [OnLog "error" ("Container build failed: " +:+ msg)], failed msg).

Definition buildWithLanguageContainer (o : dockerOracle) (workspaceDir : string)
    (detectedStack : DetectedStack) : list dockerEvent * BuildResult :=
  let buildImage := getBuildImage detectedStack in
  let buildCommands := getBuildCommands detectedStack in
  let ev0 := [OnLog "info" ("Starting build with " +:+ buildImage +:+ "...")] in
  let '(evPull, pullError) := pullImageIfNeeded o buildImage in
  match pullError with
  | Some e =>
      (ev0 ++ evPull ++
       [OnLog "error" ("Failed to pull image " +:+ buildImage +:+ ": " +:+ e)],
       failed ("Failed to pull Docker image: " +:+ e))
  | None =>
  let ev1 := ev0 ++ evPull ++
    [ContainerCreate buildImage ["sh"; "-c"; Js.join " && " buildCommands]
       [workspaceDir +:+ ":/workspace"] (4 * 1024 * 1024 * 1024) 1024] in
  match createContainer o with
  | Some e => buildCaught ev1 e
  | None =>
  let ev2 := ev1 ++ [ContainerAttach] in
  match attachContainer o with
  | Some e => buildCaught ev2 e
  | None =>
  let ev3 := ev2 ++ [ContainerStart] in
  match startContainer o with
  | Some e => buildCaught ev3 e
  | None =>
  let ev4 := ev3 ++
    (OnLog "info" <$> filter (λ m, m ≠ "") (containerOutput o)) ++ [ContainerWait] in
  match waitContainer o with
  | inl e => buildCaught ev4 e
  | inr statusCode =>
  if negb (statusCode =? 0) then
    buildCaught ev4 ("Build failed with exit code " +:+ Js.showNat statusCode)
  else
  let ev5 := ev4 ++ [OnLog "info" "Build completed successfully"] in
  let artifact := createArtifact (distDirExists o) workspaceDir detectedStack in
  let ev6 := ev5 ++ [ContainerRemove] in
  match removeContainer o with
  | Some e => buildCaught ev6 e
  | None =>
      (ev6, {| success := true; artifactPath := Some artifact;
               error := None; imageId := None |})
  end end end end end end.

(** [buildWithDockerfile]: an image build against the repository context. *)
Definition buildWithDockerfile (o : dockerOracle) (workspaceDir deploymentId : string)
    : list dockerEvent * BuildResult :=
  let imageName := "deployify-" +:+ toLowerCase deploymentId in
  let ev := [OnLog "info" "Building Docker image..."; ImageBuild workspaceDir imageName] in
  match buildImage o with
  | Some e => (ev ++ [OnLog "error" ("Docker build failed: " +:+ e)], failed e)
  | None =>
      (ev ++ (OnLog "info" <$> buildStream o)
          ++ [OnLog "info" ("Docker image built: " +:+ imageName)],
       {| success := true; artifactPath := Some workspaceDir;
          error := None; imageId := Some imageName |})
  end.

(** [isStaticHtmlProject] *)
Definition isStaticHtmlProject (detectedStack : DetectedStack) : bool :=
  match type detectedStack with TStatic => true | _ => false end
  && match framework detectedStack with
     | Some f => String.eqb f "Static HTML"
     | None => false
     end
  && match dependencyCount detectedStack with
     | Some n => (n =? 0)
     | None => true
     end.

(** [buildStaticProject] *)
Definition buildStaticProject (o : dockerOracle) (workspaceDir : string)
    (detectedStack : DetectedStack) : list dockerEvent * BuildResult :=
  let artifact := createArtifact (distDirExists o) workspaceDir detectedStack in
  ([OnLog "info" "Processing static HTML project...";
    OnLog "info" ("Static project ready for deployment: " +:+ artifact)],
   {| success := true; artifactPath := Some artifact; error := None; imageId := None |}).

(** [buildProject(options)] *)
Definition buildProject (o : dockerOracle) (workspaceDir : string)
    (detectedStack : DetectedStack) (deploymentId : string)
    : list dockerEvent * BuildResult :=
  if hasDockerfile detectedStack then buildWithDockerfile o workspaceDir deploymentId
  else if isStaticHtmlProject detectedStack then
    let '(ev, r) := buildStaticProject o workspaceDir detectedStack in
    (OnLog "info" "Detected pure static HTML project, skipping build process..." :: ev, r)
  else buildWithLanguageContainer o workspaceDir detectedStack.

Definition isCreate (e : dockerEvent) : bool :=
  match e with ContainerCreate _ _ _ _ _ => true | _ => false end.

Definition isRemove (e : dockerEvent) : bool :=
  match e with ContainerRemove => true | _ => false end.

(** A container was created and was not removed again. *)
Definition leaksContainer (ev : list dockerEvent) : bool :=
  existsb isCreate ev && negb (existsb isRemove ev).

Lemma existsb_onLog (p : dockerEvent → bool) (lvl : string) (ms : list string) :
  (∀ m, p (OnLog lvl m) = false) → existsb p (OnLog lvl <$> ms) = false.
Proof.
  intros Hp. induction ms as [|m ms IH]; [done|].
  rewrite fmap_cons. cbn [existsb]. by rewrite Hp, IH.
Qed.

Lemma pullImageIfNeeded_events (p : dockerEvent → bool) o image :
  p (ImageInspect image) = false → p (ImagePull image) = false →
  (∀ l m, p (OnLog l m) = false) →
  existsb p (pullImageIfNeeded o image).1 = false.
Proof.
  intros Hi Hp Hl. unfold pullImageIfNeeded.
  destruct (inspectImage o); [destruct (pullImage o)|]; simpl; by rewrite ?Hi, ?Hp, ?Hl.
Qed.

Ltac exists_events :=
  repeat (rewrite ?existsb_app, ?existsb_onLog, ?pullImageIfNeeded_events by done;
          cbn [existsb isCreate isRemove orb andb negb]).

(** The sibling path: a build that exits with status 0 removes its container. *)
Lemma zero_exit_removes_container o ws stack :
  (pullImageIfNeeded o (getBuildImage stack)).2 = None →
  createContainer o = None → attachContainer o = None → startContainer o = None →
  waitContainer o = inr 0 →
  existsb isRemove (buildWithLanguageContainer o ws stack).1 = true.
Proof.
  intros Hpull Hc Ha Hs Hw. unfold buildWithLanguageContainer.
  destruct (pullImageIfNeeded o (getBuildImage stack)) as [evp perr] eqn:Hp.
  simpl in Hpull. subst perr. rewrite Hc, Ha, Hs, Hw. simpl negb. cbv iota.
  destruct (removeContainer o); unfold buildCaught; cbn [fst]; exists_events;
    by rewrite ?orb_true_r.
Qed.

(** C8 fails on the code: when the build container exits with a non-zero
    status the builder reports the failure and returns without ever asking
    the daemon to remove the container it created. *)
Theorem nonzero_exit_leaves_container o ws stack (statusCode : nat) :
  (pullImageIfNeeded o (getBuildImage stack)).2 = None →
  createContainer o = None → attachContainer o = None → startContainer o = None →
  waitContainer o = inr statusCode → statusCode ≠ 0 →
  let run := buildWithLanguageContainer o ws stack in
  leaksContainer run.1 = true
  ∧ success run.2 = false
  ∧ error run.2 = Some ("Build failed with exit code " +:+ Js.showNat statusCode).
Proof.
  intros Hpull Hc Ha Hs Hw Hcode run. subst run. unfold buildWithLanguageContainer.
  pose proof (pullImageIfNeeded_events isCreate o (getBuildImage stack)) as HpC.
  pose proof (pullImageIfNeeded_events isRemove o (getBuildImage stack)) as HpR.
  destruct (pullImageIfNeeded o (getBuildImage stack)) as [evp perr] eqn:Hp.
  simpl in Hpull, HpC, HpR. subst perr. rewrite Hc, Ha, Hs, Hw.
  destruct (Nat.eqb_spec statusCode 0) as [|_]; [done|]. simpl negb. cbv iota.
  unfold buildCaught, leaksContainer. cbn [fst snd success error failed].
  split_and!; [|done|done].
  repeat (rewrite ?existsb_app, ?existsb_onLog, ?HpC, ?HpR by done;
          cbn [existsb isCreate isRemove orb andb negb]).
  by rewrite ?orb_true_r.
Qed.

(** The build of a React project whose container exits with status 1. *)
Definition exitOne : dockerOracle :=
  {| inspectImage := None; pullImage := None; createContainer := None;
     attachContainer := None; startContainer := None; waitContainer := inr 1;
     containerOutput := ["npm ERR! Missing script: build"]; distDirExists := false;
     removeContainer := None; buildImage := None; buildStream := [] |}.

Definition reactStack : DetectedStack :=
  {| framework := Some "react"; type := TSpa; packageManager := Npm;
     hasDockerfile := false; distDir := Some "build"; buildCmd := None;
     dependencyCount := None |}.

Lemma nonzero_exit_leaves_container_witness :
  let run := buildWithLanguageContainer exitOne "/tmp/ws" reactStack in
  leaksContainer run.1 = true
  ∧ success run.2 = false
  ∧ error run.2 = Some "Build failed with exit code 1".
Proof.
  apply (nonzero_exit_leaves_container exitOne "/tmp/ws" reactStack 1);
    [reflexivity | reflexivity | reflexivity | reflexivity | reflexivity | lia].
Defined.

(** *** More about [cloneRepository] *)






Lemma cloneRepository_resolved_dir (git : gitOracle) (base wsId d : string)
    (branchArg : option string) :
  (cloneRepository git base wsId branchArg).2 = inl d → d = workspacePath base wsId.
Proof.
  unfold cloneRepository.
  destruct (git 0 _); [|by intros [= <-]].
  destruct (tryBranches _ _ _ _) as [ev [|]]; [by intros [= <-]|].
  destruct (git _ (cloneArgs None)); [done|by intros [= <-]].
Qed.


(** *** More about the build *)

Definition isPull (e : dockerEvent) : bool :=
  match e with ImagePull _ => true | _ => false end.


(** X2: [buildWithLanguageContainer] reports success exactly when the image is
    at hand, the container is created, attached, started, exits with status
    0 and is removed.  A reported success comes with the artifact path and
    without a leaked container; a reported failure carries an error message
    and no artifact path. *)
Theorem buildWithLanguageContainer_success_iff (o : dockerOracle) (ws : string)
    (stack : DetectedStack) :
  let run := buildWithLanguageContainer o ws stack in
  (success run.2 = true
   ↔ (pullImageIfNeeded o (getBuildImage stack)).2 = None
     ∧ createContainer o = None ∧ attachContainer o = None
     ∧ startContainer o = None ∧ waitContainer o = inr 0
     ∧ removeContainer o = None)
  ∧ (success run.2 = true →
     leaksContainer run.1 = false
     ∧ artifactPath run.2 = Some (createArtifact (distDirExists o) ws stack)
     ∧ error run.2 = None)
  ∧ (success run.2 = false → is_Some (error run.2) ∧ artifactPath run.2 = None).
Proof.
  intros run. subst run. unfold buildWithLanguageContainer.
  pose proof (pullImageIfNeeded_events isCreate o (getBuildImage stack)) as HpC.
  destruct (pullImageIfNeeded o (getBuildImage stack)) as [evp [perr|]];
    cbn [fst snd] in *.
  { split_and!; [split; [done|by intros [? _]]|done|by eauto]. }
  destruct (createContainer o) as [e|].
  { split_and!; [split; [done|by intros (_ & ? & _)]|done|by eauto]. }
  destruct (attachContainer o) as [e|].
  { split_and!; [split; [done|by intros (_ & _ & ? & _)]|done|by eauto]. }
  destruct (startContainer o) as [e|].
  { split_and!; [split; [done|by intros (_ & _ & _ & ? & _)]|done|by eauto]. }
  destruct (waitContainer o) as [e|code].
  { split_and!; [split; [done|by intros (_ & _ & _ & _ & ? & _)]|done|by eauto]. }
  destruct code as [|code]; cbn [Nat.eqb negb].
  2:{ split_and!; [split; [done|by intros (_ & _ & _ & _ & ? & _)]|done|by eauto]. }
  destruct (removeContainer o) as [e|].
  { split_and!; [split; [done|by intros (_ & _ & _ & _ & _ & ?)]|done|by eauto]. }
  split_and!; [done| |done].
  intros _. split_and!; [|done|done]. unfold leaksContainer. cbn [fst].
  repeat (rewrite ?existsb_app, ?existsb_onLog by done;
          cbn [existsb isCreate isRemove orb andb negb]).
  by rewrite !orb_true_r.
Qed.

(** X3: an image that is present locally is never pulled; an image that is
    missing is pulled once, and when that pull fails the build stops there:
    no container is created and the failure names the pull. *)
Theorem image_pulled_only_when_missing (o : dockerOracle) (ws : string)
    (stack : DetectedStack) :
  let run := buildWithLanguageContainer o ws stack in
  (inspectImage o = None → existsb isPull run.1 = false)
  ∧ (∀ e, is_Some (inspectImage o) → pullImage o = Some e →
       existsb isPull run.1 = true
       ∧ existsb isCreate run.1 = false
       ∧ run.2 = failed ("Failed to pull Docker image: " +:+ e)).
Proof.
  intros run. subst run. unfold buildWithLanguageContainer, pullImageIfNeeded. split.
  - intros ->.
    destruct (createContainer o), (attachContainer o), (startContainer o),
      (waitContainer o) as [?|[|?]], (removeContainer o);
      cbn [Nat.eqb negb]; unfold buildCaught; cbn [fst];
      repeat (rewrite ?existsb_app, ?existsb_onLog by done;
              cbn [existsb isPull orb]); done.
  - intros e [e' ->] ->. cbn [fst snd]. split_and!; [|done..].
    repeat (rewrite ?existsb_app; cbn [existsb isPull orb]). by rewrite ?orb_true_r.
Qed.


End Container.

(** ** Provider selector: [provider-decision.service.ts] *)

Module Provider.

(** [ProjectAnalysis] of [provider/dto/deployment.dto.ts]. *)
Inductive analysisType :=
| AStatic | ASpa | AReact | AVue | AAngular | ANext | ANuxt | AGatsby | AUnknown.

Record ProjectAnalysis := {
  type : analysisType;
  framework : option string;
  hasPackageJson : bool;
  hasBuildScript : bool;
  buildCommand : option string;
  buildDirectory : option string;
  isStaticHtml : bool;
  estimatedSize : nat;
}.

Inductive environmentKind := School | Staging | Prod.
Inductive budgetKind := Free | Low | AnyBudget.

Record ProviderSelectionOptions := {
  analysis : ProjectAnalysis;
  environment : environmentKind;
  budget : budgetKind;
  preferProviders : option (list string);
  maxFileSize : option nat;
}.

(** The adapters [ProviderModule.onModuleInit] registers, by their [type]. *)
Definition registered : list string := ["netlify"; "vercel"].

Definition isRegistered (p : string) : bool := existsb (String.eqb p) registered.

(** [analysis.framework === 'next' || analysis.type === 'next'] *)
Definition isNext (a : ProjectAnalysis) : bool :=
  match framework a with Some f => String.eqb f "next" | None => false end
  || match type a with ANext => true | _ => false end.

(** [analysis.isStaticHtml || analysis.type === 'static'] *)
Definition isStatic (a : ProjectAnalysis) : bool :=
  isStaticHtml a || match type a with AStatic => true | _ => false end.

(** The smart defaults of [selectProvider], after the user preference. *)
Definition smartDefault (a : ProjectAnalysis) : string :=
  if isNext a then "vercel"
  else if isStatic a then "netlify"
  else "vercel".

(** [selectProvider(options)].  Nothing in the [try] block can throw on a
    well-typed [options], so the [catch] fallback is not reachable. *)
Definition selectProvider (options : ProviderSelectionOptions) : string :=
  match preferProviders options with
  | Some (preferred :: _) =>
      if String.eqb preferred "netlify" || String.eqb preferred "vercel"
      then preferred
      else smartDefault (analysis options)
  | _ => smartDefault (analysis options)
  end.

(** Step 3 of the worker's [executeDeployment]:
    [let selectedProvider = provider; if (!selectedProvider) selectedProvider
    = await selectProvider({...})]. *)
Definition selectedProvider (provider : option string)
    (options : ProviderSelectionOptions) : string :=
  match provider with
  | Some p => if String.eqb p "" then selectProvider options else p
  | None => selectProvider options
  end.

(** The five-step decision order, as the specification words it. *)
Definition select_spec (explicit_provider : option string)
    (preferred_providers : list string) (detection : ProjectAnalysis) : string :=
  let by_detection :=
    if isNext detection then "vercel"
    else if isStatic detection then "netlify"
    else "vercel" in
  let by_preference :=
    match List.find isRegistered preferred_providers with
    | Some p => p
    | None => by_detection
    end in
  match explicit_provider with
  | Some p => if isRegistered p then p else by_preference
  | None => by_preference
  end.

Definition spaAnalysis : ProjectAnalysis :=
  {| type := ASpa; framework := Some "react"; hasPackageJson := true;
     hasBuildScript := true; buildCommand := Some "npm run build";
     buildDirectory := Some "build"; isStaticHtml := false; estimatedSize := 3 |}.

Definition optionsFor (a : ProjectAnalysis) (prefer : option (list string))
    : ProviderSelectionOptions :=
  {| analysis := a; environment := School; budget := Free;
     preferProviders := prefer; maxFileSize := Some (estimatedSize a) |}.

Lemma isRegistered_spec (p : string) :
  isRegistered p = String.eqb p "netlify" || String.eqb p "vercel".
Proof. unfold isRegistered, registered. simpl. by rewrite orb_false_r. Qed.

(** C3, as the specification states it, fails twice over: only the first
    preferred entry is looked at, so a registered second entry is ignored;
    and an explicit provider is used whether or not it is registered. *)
Lemma selectedProvider_departs_from_decision_order :
  (selectedProvider None (optionsFor spaAnalysis (Some ["aws-amplify"; "netlify"]))
     = "vercel"
   ∧ select_spec None ["aws-amplify"; "netlify"] spaAnalysis = "netlify")
  ∧ (selectedProvider (Some "aws-amplify") (optionsFor spaAnalysis None)
       = "aws-amplify"
     ∧ select_spec (Some "aws-amplify") [] spaAnalysis = "vercel").
Proof. repeat split; vm_compute; reflexivity. Qed.

(** C3 (amended): provider selection is a total function of the explicit
    provider, the preference list and the analysis.  A non-empty explicit
    provider is used as it is; otherwise the first preferred entry when it
    is registered; otherwise Vercel for Next.js, else Netlify for a static
    project, else Vercel.  Later preferred entries are never consulted, and
    the result agrees with the five-step order whenever the explicit
    provider is absent or registered and the preference list is empty or
    starts with a registered entry. *)
Theorem selectedProvider_decision (provider : option string)
    (options : ProviderSelectionOptions) :
  let chosen := selectedProvider provider options in
  let a := analysis options in
  (∀ p, provider = Some p → p ≠ "" → chosen = p)
  ∧ (Js.falsy provider = true →
     (∀ q rest, preferProviders options = Some (q :: rest) →
        isRegistered q = true → chosen = q)
     ∧ (∀ q rest rest', preferProviders options = Some (q :: rest) →
          chosen = selectedProvider provider (optionsFor a (Some (q :: rest'))))
     ∧ (default [] (preferProviders options) = []
        ∨ (∃ q rest, preferProviders options = Some (q :: rest)
                     ∧ isRegistered q = false) →
        (isNext a = true → chosen = "vercel")
        ∧ (isNext a = false → isStatic a = true → chosen = "netlify")
        ∧ (isNext a = false → isStatic a = false → chosen = "vercel"))
     ∧ isRegistered chosen = true)
  ∧ ((Js.falsy provider = true ∨ ∃ p, provider = Some p ∧ isRegistered p = true) →
     (∀ q, head (default [] (preferProviders options)) = Some q →
        isRegistered q = true) →
     chosen = select_spec provider (default [] (preferProviders options)) a).
Proof.
  intros chosen a. subst chosen a. split_and!.
  - intros p -> Hp. simpl. destruct (String.eqb_spec p ""); done.
  - intros Hf.
    assert (Hsel : selectedProvider provider options = selectProvider options).
    { destruct provider as [p|]; simpl in *; by rewrite ?Hf. }
    assert (Hself : ∀ o, selectedProvider provider o = selectProvider o).
    { intros o. destruct provider as [p|]; simpl in *; by rewrite ?Hf. }
    rewrite Hsel. unfold selectProvider. split_and!.
    + intros q rest -> Hq. rewrite isRegistered_spec in Hq. by rewrite Hq.
    + intros q rest rest' ->. rewrite Hself. done.
    + intros [Hnone | (q & rest & -> & Hq)].
      * destruct (preferProviders options) as [[|q rest]|]; simpl in Hnone; try done;
          unfold smartDefault; split_and!; intros; by repeat case_match.
      * rewrite isRegistered_spec in Hq. rewrite Hq.
        unfold smartDefault; split_and!; intros; by repeat case_match.
    + destruct (preferProviders options) as [[|q rest]|];
        try (unfold smartDefault; by repeat case_match).
      destruct (_ || _) eqn:Hq; [by rewrite isRegistered_spec|].
      unfold smartDefault; by repeat case_match.
  - intros Hexp Hpref. unfold select_spec.
    assert (Hby : selectProvider options =
      match List.find isRegistered (default [] (preferProviders options)) with
      | Some p => p
      | None => smartDefault (analysis options)
      end).
    { unfold selectProvider.
      destruct (preferProviders options) as [[|q rest]|]; simpl in *; try done.
      specialize (Hpref q eq_refl). rewrite Hpref.
      rewrite isRegistered_spec in Hpref. by rewrite Hpref. }
    fold (smartDefault (analysis options)). rewrite <- Hby.
    destruct provider as [p|]; simpl; [|done].
    destruct Hexp as [Hf | (p' & [= <-] & Hp)].
    + simpl in Hf. rewrite Hf. apply String.eqb_eq in Hf as ->. done.
    + rewrite Hp. destruct (String.eqb_spec p ""); [by subst|done].
Qed.

End Provider.

(** ** Deployment store: [deployment.service.ts] *)

Module Store.

(** The values of [Deployment['status']] the services read and write. *)
Inductive status :=
| Queued | Cloning | Detecting | Building | Deploying | Success | Failed | Cancelled.

Global Instance status_eq_dec : EqDecision status.
Proof. solve_decision. Defined.

(** The columns of the [Deployment] entity that a status update touches;
    dates are clock readings. *)
Record Deployment := {
  status_ : status;
  provider : option string;
  deploymentUrl : option string;
  detectedStack : option string;
  errorMessage : option string;
  updatedAt : nat;
  startedAt : option nat;
  completedAt : option nat;
}.

(** The optional [data] argument of [updateDeploymentStatus]. *)
Record statusData := {
  dataProvider : option string;
  dataDeploymentUrl : option string;
  dataDetectedStack : option string;
  dataErrorMessage : option string;
}.

Definition noData : statusData :=
  {| dataProvider := None; dataDeploymentUrl := None;
     dataDetectedStack := None; dataErrorMessage := None |}.

(** A key of the update object overwrites its column; an absent key leaves it. *)
Definition assign {A} (new : option A) (old : option A) : option A :=
  match new with Some _ => new | None => old end.

(** [['success', 'failed', 'cancelled'].includes(status)] *)
Definition isTerminal (s : status) : bool :=
  match s with Success | Failed | Cancelled => true | _ => false end.

(** The row after [repository.update(id, updateData)], with
    [updateData = { status, updatedAt: new Date(), ...data }] and the
    [startedAt] / [completedAt] stamps. *)
Definition applyUpdate (now : nat) (s : status) (data : statusData)
    (d : Deployment) : Deployment :=
  {| status_ := s;
     provider := assign (dataProvider data) (provider d);
     deploymentUrl := assign (dataDeploymentUrl data) (deploymentUrl d);
     detectedStack := assign (dataDetectedStack data) (detectedStack d);
     errorMessage := assign (dataErrorMessage data) (errorMessage d);
     updatedAt := now;
     startedAt :=
       if decide (s = Building) then Some now else startedAt d;
     completedAt :=
       if decide (s = Building) then completedAt d
       else if isTerminal s then Some now else completedAt d |}.

(** [updateDeploymentStatus(id, status, data = {})] on the table of
    deployments: the row with this id is rewritten, whatever it holds. *)
Definition updateDeploymentStatus (now : nat) (id : string) (s : status)
    (data : statusData) (repo : gmap string Deployment) : gmap string Deployment :=
  alter (applyUpdate now s data) id repo.







Lemma updateDeploymentStatus_other now id id' s data repo :
  id ≠ id' →
  updateDeploymentStatus now id s data repo !! id' = repo !! id'.
Proof. intros H. unfold updateDeploymentStatus. by rewrite lookup_alter_ne. Qed.

End Store.

(** ** Worker pipeline: [deployment.worker.ts] *)

Module Worker.
Import Store.

(** What one run of the pipeline does to the deployment store, the log bus
    and the outside world, in program order. *)
Inductive event :=
| StatusUpdate (s : status) (data : statusData)
| Log (level step message : string)
| Git (e : Container.cloneEvent)
| Docker (e : Container.dockerEvent)
| Cleanup (workspaceDir : string).

(** A step of the pipeline: the events it caused, and its value or the
    [message] of the [Error] it threw. *)
Definition M (A : Type) : Type := list event * (A + string).

Definition ret {A} (a : A) : M A := ([], inl a).
Definition throw {A} (message : string) : M A := ([], inr message).
Definition emit (ev : list event) : M unit := (ev, inl tt).

Definition bind {A B} (m : M A) (k : A → M B) : M B :=
  match m with
  | (ev, inl a) => let '(ev', r) := k a in (ev ++ ev', r)
  | (ev, inr message) => (ev, inr message)
  end.

Notation "x <- m ;; k" := (bind m (λ x, k))
  (at level 100, m at next level, right associativity).
Notation "m ;;; k" := (bind m (λ _, k))
  (at level 100, right associativity).

(** [try { m } catch (error) { handler(error.message) }] *)
Definition tryCatch {A} (m : M A) (handler : string → M A) : M A :=
  match m with
  | (ev, inl a) => (ev, inl a)
  | (ev, inr message) => let '(ev', r) := handler message in (ev ++ ev', r)
  end.

(** The helpers of [LoggingService] as the worker sees them. *)
Definition logStep (step message : string) : M unit := emit [Log "info" step message].
Definition logSuccess (message step : string) : M unit := emit [Log "success" step message].
Definition logError (message step : string) : M unit := emit [Log "error" step message].
Definition updateStatus (s : status) (data : statusData) : M unit :=
  emit [StatusUpdate s data].

Record DeploymentConfig := {
  name : option string;
  configBuildDirectory : option string;
}.

(** [DeploymentJobData] *)
Record DeploymentJobData := {
  deploymentId : string;
  repoUrl : string;
  branch : string;
  environment : Provider.environmentKind;
  budget : Provider.budgetKind;
  preferProviders : option (list string);
  provider : option string;
  credentialId : option string;
  config : option DeploymentConfig;
}.

(** What [getCredentialForDeployment] resolves to. *)
Record credentialData := {
  credProvider : string;
  credentials : string;
  isActive : bool;
}.

(** [DeploymentResult] *)
Record DeploymentResult := {
  success : bool;
  url : option string;
  error : option string;
  resultProvider : string;
}.

(** The collaborators of one pipeline run. *)
Record pipelineOracle := {
  workspaceId : string;
  git : Container.gitOracle;
  projectAnalysis : Provider.ProjectAnalysis;
  credentialForDeployment : credentialData + string;
  firstCredentialForProvider : string → option string;
  docker : Container.dockerOracle;
  artifactContents : list string + string;
  deployToProvider : string → DeploymentResult;
}.

Definition workspaceBase : string := "/tmp/deployify-workspaces".

Definition showType (t : Provider.analysisType) : string :=
  match t with
  | Provider.AStatic => "static" | Provider.ASpa => "spa"
  | Provider.AReact => "react" | Provider.AVue => "vue"
  | Provider.AAngular => "angular" | Provider.ANext => "next"
  | Provider.ANuxt => "nuxt" | Provider.AGatsby => "gatsby"
  | Provider.AUnknown => "unknown"
  end.

(** [mapProjectType] *)
Definition mapProjectType (t : Provider.analysisType) : Container.stackType :=
  match t with
  | Provider.AStatic => Container.TStatic
  | Provider.ASpa | Provider.AReact | Provider.AVue | Provider.AAngular => Container.TSpa
  | Provider.ANext | Provider.ANuxt => Container.TSsr
  | Provider.AGatsby => Container.TStatic
  | Provider.AUnknown => Container.TStatic
  end.

(** [onLog: (level, message) => addLog(deploymentId, level, message, 'build')] *)
Definition ofDocker (e : Container.dockerEvent) : event :=
  match e with
  | Container.OnLog level message => Log level "build" message
  | _ => Docker e
  end.

(** Step 1: clone. *)
Definition cloneStep (job : DeploymentJobData) (o : pipelineOracle) : M string :=
  let '(ev, r) :=
    Container.cloneRepository (git o) workspaceBase (workspaceId o) (Some (branch job)) in
  (Git <$> ev, r).

(** Step 3.5: the credential named by the job, or the first one of the provider. *)
Definition loadCredentials (job : DeploymentJobData) (o : pipelineOracle)
    (selected : string) : M string :=
  if negb (Js.falsy (credentialId job)) then
    tryCatch
      (logStep "credentials" "Fetching deployment credentials..." ;;;
       credentialData <- ([], credentialForDeployment o) ;;
       (if negb (isActive credentialData)
        then throw "Selected credential is inactive" else ret tt) ;;;
       (if negb (String.eqb (credProvider credentialData) selected)
        then throw ("Credential provider (" +:+ credProvider credentialData +:+
                    ") does not match selected provider (" +:+ selected +:+ ")")
        else ret tt) ;;;
       logSuccess "Credentials loaded successfully" "credentials" ;;;
       ret (credentials credentialData))
      (λ message,
         logError ("Failed to load credentials: " +:+ message) "credentials" ;;;
         throw ("Credential error: " +:+ message))
  else
    logStep "credentials" ("Auto-fetching credentials for " +:+ selected +:+ "...") ;;;
    match firstCredentialForProvider o selected with
    | Some c =>
        logSuccess ("Auto-selected credential for " +:+ selected) "credentials" ;;;
        ret c
    | None =>
        logError ("No credentials found for " +:+ selected +:+
                  " - please add credentials in Settings") "credentials" ;;;
        throw ("No credentials available for " +:+ selected +:+
               ". Please add credentials in Settings.")
    end.

(** Step 4: build, when the analysis found a build script and the project
    is not plain HTML. *)
Definition buildStep (job : DeploymentJobData) (o : pipelineOracle)
    (workspaceDir : string) : M string :=
  let a := projectAnalysis o in
  if Provider.hasBuildScript a && negb (Provider.isStaticHtml a) then
    logStep "build" "Building project..." ;;;
    logStep "build" ("Using build command: " +:+
                     Js.orDefault (Provider.buildCommand a) "npm run build") ;;;
    logStep "build" ("Expected output directory: " +:+
                     Js.orDefault (Provider.buildDirectory a) "dist") ;;;
    let '(ev, buildResult) :=
      Container.buildProject (docker o) workspaceDir
        {| Container.framework := Some (Js.orDefault (Provider.framework a) "unknown");
           Container.type := mapProjectType (Provider.type a);
           Container.packageManager := Container.Npm;
           Container.hasDockerfile := false;
           Container.distDir := Some (Js.orDefault (Provider.buildDirectory a) "dist");
           Container.buildCmd := None;
           Container.dependencyCount := None |}
        (deploymentId job) in
    emit (ofDocker <$> ev) ;;;
    (if negb (Container.success buildResult)
     then throw (Js.orDefault (Container.error buildResult) "Build failed")
     else ret tt) ;;;
    let buildPath := default "undefined" (Container.artifactPath buildResult) in
    logStep "build" ("Build artifacts created at: " +:+ buildPath) ;;;
    match artifactContents o with
    | inl names => logStep "build" ("Artifact contents: " +:+ Js.join ", " names)
    | inr message => logStep "build" ("Could not list artifact contents: " +:+ message)
    end ;;;
    logSuccess "Project built successfully" "build" ;;;
    ret buildPath
  else
    logStep "build" "Skipping build step (static HTML project or no build script)" ;;;
    ret workspaceDir.

(** The [try] block of [executeDeployment]. *)
Definition pipeline (job : DeploymentJobData) (o : pipelineOracle) : M DeploymentResult :=
  let a := projectAnalysis o in
  logStep "initialization" "Starting deployment process..." ;;;
  updateStatus Cloning noData ;;;
  logStep "clone" ("Cloning repository " +:+ repoUrl job +:+ "...") ;;;
  workspaceDir <- cloneStep job o ;;
  logSuccess "Repository cloned successfully" "clone" ;;;
  updateStatus Building noData ;;;
  logStep "analysis" "Analyzing project structure..." ;;;
  logStep "analysis" ("Framework: " +:+ Js.orDefault (Provider.framework a) "unknown") ;;;
  logStep "analysis" ("Project type: " +:+ showType (Provider.type a)) ;;;
  logStep "analysis" ("Build command: " +:+ Js.orDefault (Provider.buildCommand a) "none") ;;;
  logStep "analysis" ("Build directory: " +:+
                      Js.orDefault (Provider.buildDirectory a) "none") ;;;
  logSuccess ("Detected " +:+ Js.orDefault (Provider.framework a) "unknown" +:+
              " (" +:+ showType (Provider.type a) +:+ ") project") "analysis" ;;;
  logStep "provider-selection" "Selecting optimal deployment provider..." ;;;
  let selected :=
    Provider.selectedProvider (provider job)
      {| Provider.analysis := a;
         Provider.environment := environment job;
         Provider.budget := budget job;
         Provider.preferProviders := preferProviders job;
         Provider.maxFileSize := Some (Provider.estimatedSize a) |} in
  logSuccess ("Selected provider: " +:+ selected) "provider-selection" ;;;
  creds <- loadCredentials job o selected ;;
  buildPath <- buildStep job o workspaceDir ;;
  let buildDirectory :=
    match config job with
    | Some c => assign (configBuildDirectory c) (Provider.buildDirectory a)
    | None => Provider.buildDirectory a
    end in
  updateStatus Deploying noData ;;;
  logStep "deployment" ("Deploying to " +:+ selected +:+ "...") ;;;
  logStep "deployment" ("Deployment source path: " +:+ buildPath) ;;;
  logStep "deployment" ("Build directory config: " +:+ default "undefined" buildDirectory) ;;;
  let deployResult := deployToProvider o selected in
  (if negb (success deployResult)
   then throw (Js.orDefault (error deployResult) "Deployment failed")
   else ret tt) ;;;
  updateStatus Success
    {| dataProvider := None; dataDeploymentUrl := url deployResult;
       dataDetectedStack := None; dataErrorMessage := None |} ;;;
  logSuccess ("Deployment successful! Available at: " +:+
              default "undefined" (url deployResult)) "deployment" ;;;
  ret deployResult.

(** [error?.message || String(error)] for a thrown [Error]. *)
Definition errorText (message : string) : string :=
  if String.eqb message "" then "Error" else message.

(** The [finally] block of [executeDeployment]: the workspace is removed
    once the clone has produced one. *)
Definition cleanupEvents (job : DeploymentJobData) (o : pipelineOracle) : list event :=
  match (cloneStep job o).2 with
  | inl workspaceDir => [Cleanup workspaceDir; Log "info" "cleanup" "Workspace cleaned up"]
  | inr _ => []
  end.

(** [executeDeployment]: the [try] block, the [catch] that marks the
    deployment failed and rethrows, and the [finally]. *)
Definition executeDeployment (job : DeploymentJobData) (o : pipelineOracle)
    : M DeploymentResult :=
  let '(ev, r) :=
    tryCatch (pipeline job o)
      (λ message,
         updateStatus Failed
           {| dataProvider := None; dataDeploymentUrl := None;
              dataDetectedStack := None;
              dataErrorMessage := Some (errorText message) |} ;;;
         logError (errorText message) "deployment" ;;;
         throw message) in
  (ev ++ cleanupEvents job o, r).

Definition DEPLOYMENT_TIMEOUT_MESSAGE : string :=
  "Deployment timeout: exceeded 15 minute limit".
Definition MAX_RETRIES : nat := 2.

(** [Promise.race([executeDeployment(...), timeoutPromise])].  [fired] is
    [None] when the pipeline settles within the 15 minutes and [Some n]
    when the timer fires after the pipeline's [n]-th event; the pipeline is
    not cancelled by the race and goes on in the background. *)
Definition race {A} (fired : option nat) (settled : A + string) : A + string :=
  match fired with
  | Some _ => inr DEPLOYMENT_TIMEOUT_MESSAGE
  | None => settled
  end.

(** How [processDeployment] ends: it returns, or it rethrows to the queue. *)
Inductive jobOutcome :=
| Returned
| Rethrown (message : string).

(** The [catch] block of [processDeployment] for an error with [message]. *)
Definition onFailure (attemptsMade : nat) (message : string) : list event * jobOutcome :=
  let logged := [Log "error" "deployment" message] in
  if (attemptsMade <? MAX_RETRIES) && negb (Js.includes message "timeout")
  then (logged, Rethrown message)
  else (logged ++
        [StatusUpdate Failed
           {| dataProvider := None; dataDeploymentUrl := None;
              dataDetectedStack := None; dataErrorMessage := Some message |}],
        Returned).

(** [processDeployment(job)], with [attemptsMade = job.attemptsMade || 0].
    Its own [workspaceDir] is never assigned, so its [finally] does nothing. *)
Definition processDeployment (attemptsMade : nat) (fired : option nat)
    (job : DeploymentJobData) (o : pipelineOracle) : list event * jobOutcome :=
  let '(ev, settled) := executeDeployment job o in
  match race fired settled with
  | inl _ => (ev, Returned)
  | inr message =>
      let '(ev', outcome) := onFailure attemptsMade message in
      match fired with
      | Some n => (take n ev ++ ev' ++ drop n ev, outcome)
      | None => (ev ++ ev', outcome)
      end
  end.

(** The queue's side: [createDeployment] enqueues with [attempts: 3], and
    Bull runs a job again when its processor threw and attempts remain. *)
Definition JOB_ATTEMPTS : nat := 3.

Definition reEnqueued (attemptsMade : nat) (outcome : jobOutcome) : bool :=
  match outcome with
  | Rethrown _ => (attemptsMade + 1 <? JOB_ATTEMPTS)
  | Returned => false
  end.

(** The states written to the store, in order. *)
Definition statusUpdates (ev : list event) : list status :=
  omap (λ e, match e with StatusUpdate s _ => Some s | _ => None end) ev.


(** *** Which states a run writes *)

Lemma statusUpdates_app ev1 ev2 :
  statusUpdates (ev1 ++ ev2) = statusUpdates ev1 ++ statusUpdates ev2.
Proof. apply omap_app. Qed.

Lemma bind_events {A B} (m : M A) (k : A → M B) :
  (bind m k).1 = m.1 ++ match m.2 with inl a => (k a).1 | inr _ => [] end.
Proof.
  destruct m as [ev [a|e]]; simpl; [|by rewrite app_nil_r].
  by destruct (k a).
Qed.

Lemma bind_result {A B} (m : M A) (k : A → M B) :
  (bind m k).2 = match m.2 with inl a => (k a).2 | inr e => inr e end.
Proof. destruct m as [ev [a|e]]; simpl; [|done]. by destruct (k a). Qed.

Lemma tryCatch_events {A} (m : M A) (h : string → M A) :
  (tryCatch m h).1 = m.1 ++ match m.2 with inl _ => [] | inr e => (h e).1 end.
Proof.
  destruct m as [ev [a|e]]; simpl; [by rewrite app_nil_r|]. by destruct (h e).
Qed.

Lemma tryCatch_result {A} (m : M A) (h : string → M A) :
  (tryCatch m h).2 = match m.2 with inl a => inl a | inr e => (h e).2 end.
Proof. destruct m as [ev [a|e]]; simpl; [done|]. by destruct (h e). Qed.

(** A step is quiet when it writes no state. *)
Definition quiet {A} (m : M A) : Prop := statusUpdates m.1 = [].






Lemma statusUpdates_git ev : statusUpdates (Git <$> ev) = [].
Proof. induction ev as [|e ev IH]; [done|]. by rewrite fmap_cons. Qed.



Lemma cloneStep_quiet job o : quiet (cloneStep job o).
Proof.
  unfold quiet, cloneStep. destruct (Container.cloneRepository _ _ _ _).
  apply statusUpdates_git.
Qed.



Lemma statusUpdates_cons e ev :
  statusUpdates (e :: ev)
  = match e with StatusUpdate s _ => s :: statusUpdates ev | _ => statusUpdates ev end.
Proof. by destruct e. Qed.

Lemma statusUpdates_nil : statusUpdates [] = [].
Proof. done. Qed.





(** *** Sample runs *)

Definition sampleJob : DeploymentJobData :=
  {| deploymentId := "d1"; repoUrl := "https://github.com/acme/site";
     branch := "main"; environment := Provider.School; budget := Provider.Free;
     preferProviders := None; provider := None; credentialId := None;
     config := None |}.

Definition deployed (p : string) : DeploymentResult :=
  {| success := true; url := Some "https://site.vercel.app"; error := None;
     resultProvider := p |}.

(** The repository clones, a credential exists, the build container exits
    with status 1. *)
Definition buildFails : pipelineOracle :=
  {| workspaceId := "workspace_1"; git := λ _ _, None;
     projectAnalysis := Provider.spaAnalysis;
     credentialForDeployment := inr "Credentials not found";
     firstCredentialForProvider := λ _, Some "{}";
     docker := Container.exitOne; artifactContents := inl ["index.html"];
     deployToProvider := deployed |}.

(** No credential is stored for the selected provider. *)
Definition noCredential : pipelineOracle :=
  {| workspaceId := "workspace_1"; git := λ _ _, None;
     projectAnalysis := Provider.spaAnalysis;
     credentialForDeployment := inr "Credentials not found";
     firstCredentialForProvider := λ _, None;
     docker := Container.exitOne; artifactContents := inl ["index.html"];
     deployToProvider := deployed |}.

(** The container daemon does not answer. *)
Definition daemonDown : pipelineOracle :=
  let refused := Some "connect ENOENT /var/run/docker.sock" in
  {| workspaceId := "workspace_1"; git := λ _ _, None;
     projectAnalysis := Provider.spaAnalysis;
     credentialForDeployment := inr "Credentials not found";
     firstCredentialForProvider := λ _, Some "{}";
     docker :=
       {| Container.inspectImage := refused; Container.pullImage := refused;
          Container.createContainer := refused; Container.attachContainer := refused;
          Container.startContainer := refused;
          Container.waitContainer := inl "connect ENOENT /var/run/docker.sock";
          Container.containerOutput := []; Container.distDirExists := false;
          Container.removeContainer := refused; Container.buildImage := refused;
          Container.buildStream := [] |};
     artifactContents := inl []; deployToProvider := deployed |}.

Definition markedFailed (message : string) : event :=
  StatusUpdate Failed
    {| dataProvider := None; dataDeploymentUrl := None;
       dataDetectedStack := None; dataErrorMessage := Some message |}.

(** *** C1: the retry rule *)

(** C1, as the specification states it, fails: on a first attempt a failed
    build, a missing credential and an unreachable container daemon are all
    rethrown to the queue, which runs the job again. *)
Lemma processDeployment_retries_terminal_kinds :
  ((processDeployment 0 None sampleJob buildFails).2
     = Rethrown "Build failed with exit code 1"
   ∧ reEnqueued 0 (processDeployment 0 None sampleJob buildFails).2 = true)
  ∧ ((processDeployment 0 None sampleJob noCredential).2
       = Rethrown "No credentials available for vercel. Please add credentials in Settings."
     ∧ reEnqueued 0 (processDeployment 0 None sampleJob noCredential).2 = true)
  ∧ ((processDeployment 0 None sampleJob daemonDown).2
       = Rethrown "Failed to pull Docker image: connect ENOENT /var/run/docker.sock"
     ∧ reEnqueued 0 (processDeployment 0 None sampleJob daemonDown).2 = true).
Proof. repeat split; vm_compute; reflexivity. Qed.

(** C1 (amended): when a job fails with some message on an attempt with
    [attemptsMade] earlier attempts, the worker rethrows to the queue, and
    the queue runs the job again, exactly when [attemptsMade < 2] and the
    message does not contain [timeout]; otherwise it marks the deployment
    failed and returns.  Errors are not classed by kind: the pipeline
    timeout is terminal on every attempt, any other failure only on the
    third. *)
Theorem processDeployment_retry_rule (attemptsMade : nat) (fired : option nat)
    (job : DeploymentJobData) (o : pipelineOracle) (message : string) :
  race fired (executeDeployment job o).2 = inr message →
  let run := processDeployment attemptsMade fired job o in
  (run.2 = Rethrown message
   ↔ (attemptsMade < MAX_RETRIES) ∧ Js.includes message "timeout" = false)
  ∧ (run.2 = Returned
     ↔ (MAX_RETRIES ≤ attemptsMade) ∨ Js.includes message "timeout" = true)
  ∧ (run.2 = Returned → markedFailed message ∈ run.1)
  ∧ (reEnqueued attemptsMade run.2 = true ↔ run.2 = Rethrown message)
  ∧ (is_Some fired → run.2 = Returned).
Proof.
  intros Hrace run. subst run. unfold processDeployment.
  destruct (executeDeployment job o) as [ev settled]. cbn [snd] in Hrace.
  rewrite Hrace. unfold onFailure, MAX_RETRIES.
  assert (Htimeout : is_Some fired → Js.includes message "timeout" = true).
  { intros [n ->]. simpl in Hrace. injection Hrace as <-. by vm_compute. }
  destruct (Nat.ltb_spec attemptsMade 2) as [Hlt|Hge];
    destruct (Js.includes message "timeout") eqn:Hinc; cbn [andb negb];
    destruct fired as [n|]; cbn [fst snd reEnqueued];
    try (specialize (Htimeout (mk_is_Some _ _ eq_refl)); discriminate Htimeout);
    (split_and!;
       [ split; [intros; try done; try lia | intros [? ?]; try done; try lia]
       | split; [intros; try done; auto | intros [?|?]; try done; try lia]
       | intros; try done; rewrite ?elem_of_app; unfold markedFailed; set_solver
       | unfold JOB_ATTEMPTS; split; intros; try done;
           by apply Nat.ltb_lt; lia
       | intros [? ?]; done ]).
Qed.

(** The rule at a build failure on the first attempt. *)
Lemma processDeployment_retry_rule_witness :
  let run := processDeployment 0 None sampleJob buildFails in
  let message := "Build failed with exit code 1" in
  (run.2 = Rethrown message
   ↔ (0 < MAX_RETRIES) ∧ Js.includes message "timeout" = false)
  ∧ (run.2 = Returned
     ↔ (MAX_RETRIES ≤ 0) ∨ Js.includes message "timeout" = true)
  ∧ (run.2 = Returned → markedFailed message ∈ run.1)
  ∧ (reEnqueued 0 run.2 = true ↔ run.2 = Rethrown message)
  ∧ (is_Some (@None nat) → run.2 = Returned).
Proof.
  apply (processDeployment_retry_rule 0 None sampleJob buildFails
           "Build failed with exit code 1").
  vm_compute. reflexivity.
Defined.

(** *** C2: state transitions *)





(** *** More about one attempt *)

Definition isDocker (e : event) : bool :=
  match e with Docker _ => true | _ => false end.

(** The provider the attempt settles on (step 3). *)
Definition selectedFor (job : DeploymentJobData) (o : pipelineOracle) : string :=
  Provider.selectedProvider (provider job)
    {| Provider.analysis := projectAnalysis o;
       Provider.environment := environment job;
       Provider.budget := budget job;
       Provider.preferProviders := preferProviders job;
       Provider.maxFileSize := Some (Provider.estimatedSize (projectAnalysis o)) |}.

Lemma existsb_git (p : event → bool) (ev : list Container.cloneEvent) :
  (∀ e, p (Git e) = false) → existsb p (Git <$> ev) = false.
Proof.
  intros Hp. induction ev as [|e ev IH]; [done|].
  rewrite fmap_cons. cbn [existsb]. by rewrite Hp, IH.
Qed.

Lemma cloneStep_no_docker job o : existsb isDocker (cloneStep job o).1 = false.
Proof.
  unfold cloneStep. destruct (Container.cloneRepository _ _ _ _).
  by apply existsb_git.
Qed.

Ltac trace_steps :=
  repeat (rewrite ?bind_result, ?bind_events, ?tryCatch_result, ?tryCatch_events,
            ?statusUpdates_app, ?statusUpdates_cons, ?statusUpdates_nil, ?existsb_app;
          cbn [fst snd emit logStep logSuccess logError updateStatus ret throw app
               existsb isDocker orb negb]).

(** X5: no credential, no build.  When the job names no credential and none
    is stored for the selected provider, the attempt stops after the
    analysis: it rejects with the message that asks for credentials, the
    deployment goes [cloning], [building], [failed], the container daemon is
    never called, and the workspace is still cleaned up at the end. *)
Theorem missing_credential_stops_before_build (job : DeploymentJobData)
    (o : pipelineOracle) (dir : string) :
  (cloneStep job o).2 = inl dir →
  Js.falsy (credentialId job) = true →
  firstCredentialForProvider o (selectedFor job o) = None →
  let run := executeDeployment job o in
  run.2 = inr ("No credentials available for " +:+ selectedFor job o +:+
               ". Please add credentials in Settings.")
  ∧ statusUpdates run.1 = [Cloning; Building; Failed]
  ∧ existsb isDocker run.1 = false
  ∧ ∃ ev, run.1 = ev ++ [Cleanup dir; Log "info" "cleanup" "Workspace cleaned up"].
Proof.
  intros Hclone Hnone Hcred run. subst run.
  unfold executeDeployment, cleanupEvents. rewrite Hclone.
  assert (Hp : (pipeline job o).2
               = inr ("No credentials available for " +:+ selectedFor job o +:+
                      ". Please add credentials in Settings.")
             ∧ statusUpdates (pipeline job o).1 = [Cloning; Building]
             ∧ existsb isDocker (pipeline job o).1 = false).
  { unfold pipeline. fold (selectedFor job o).
    pose proof (cloneStep_quiet job o) as Hq. unfold quiet in Hq.
    pose proof (cloneStep_no_docker job o) as Hd.
    destruct (cloneStep job o) as [evc r]. cbn [fst snd] in *. subst r.
    unfold loadCredentials. rewrite Hnone, Hcred. cbn [negb].
    trace_steps. by rewrite Hq, Hd. }
  destruct Hp as (Hr & Hs & Hd).
  match goal with
  | |- context [tryCatch ?m ?h] =>
      pose proof (tryCatch_events m h) as He; pose proof (tryCatch_result m h) as Ht;
      destruct (tryCatch m h) as [ev r]
  end.
  cbn [fst snd] in *. subst ev r. rewrite Hr. trace_steps.
  rewrite Hs, Hd. split_and!; [done|done|done|]. eauto.
Qed.

Lemma missing_credential_stops_before_build_witness :
  let run := executeDeployment sampleJob noCredential in
  run.2 = inr ("No credentials available for " +:+ selectedFor sampleJob noCredential +:+
               ". Please add credentials in Settings.")
  ∧ statusUpdates run.1 = [Cloning; Building; Failed]
  ∧ existsb isDocker run.1 = false
  ∧ ∃ ev, run.1 = ev ++ [Cleanup "/tmp/deployify-workspaces/workspace_1";
                          Log "info" "cleanup" "Workspace cleaned up"].
Proof.
  apply (missing_credential_stops_before_build sampleJob noCredential
           "/tmp/deployify-workspaces/workspace_1"); reflexivity.
Defined.

Definition isCleanup (e : event) : bool :=
  match e with Cleanup _ => true | _ => false end.

(** A step avoids the events picked by [p]. *)
Definition avoids {A} (p : event → bool) (m : M A) : Prop := existsb p m.1 = false.

Lemma avoids_bind {A B} p (m : M A) (k : A → M B) :
  avoids p m → (∀ a, avoids p (k a)) → avoids p (bind m k).
Proof.
  unfold avoids. intros Hm Hk. rewrite bind_events, existsb_app, Hm.
  destruct m.2; [apply Hk|done].
Qed.

Lemma avoids_tryCatch {A} p (m : M A) (h : string → M A) :
  avoids p m → (∀ e, avoids p (h e)) → avoids p (tryCatch m h).
Proof.
  unfold avoids. intros Hm Hh. rewrite tryCatch_events, existsb_app, Hm.
  destruct m.2; [done|apply Hh].
Qed.

Lemma existsb_ofDocker (p : event → bool) (ev : list Container.dockerEvent) :
  (∀ e, p (Docker e) = false) → (∀ l s m, p (Log l s m) = false) →
  existsb p (ofDocker <$> ev) = false.
Proof.
  intros Hd Hl. induction ev as [|e ev IH]; [done|].
  rewrite fmap_cons. cbn [existsb]. rewrite IH, orb_false_r.
  destruct e; simpl; by rewrite ?Hd, ?Hl.
Qed.

Ltac avoid_steps :=
  repeat first
    [ done
    | apply avoids_bind; [|intros ?] | apply avoids_tryCatch; [|intros ?]
    | progress unfold logStep, logSuccess, logError, updateStatus
    | match goal with |- avoids _ (if ?b then _ else _) => destruct b end
    | match goal with |- avoids _ (match ?x with _ => _ end) => destruct x end ].

Lemma pipeline_no_cleanup job o : avoids isCleanup (pipeline job o).
Proof.
  assert (Hc : avoids isCleanup (cloneStep job o)).
  { unfold avoids, cloneStep. destruct (Container.cloneRepository _ _ _ _).
    by apply existsb_git. }
  assert (Hl : ∀ s, avoids isCleanup (loadCredentials job o s)).
  { intros s. unfold loadCredentials. avoid_steps. }
  assert (Hb : ∀ ws, avoids isCleanup (buildStep job o ws)).
  { intros ws. unfold buildStep. destruct (_ && _); [|avoid_steps].
    destruct (Container.buildProject _ _ _ _) as [ev r].
    avoid_steps. unfold avoids. cbn [emit fst]. by apply existsb_ofDocker. }
  unfold pipeline.
  repeat first
    [ apply Hc | apply Hl | apply Hb
    | apply avoids_bind; [|intros ?]
    | progress unfold logStep, logSuccess, logError, updateStatus
    | match goal with |- avoids _ (if ?b then _ else _) => destruct b end
    | done ].
Qed.

(** X6: [cleanup] is called exactly once, as the last action of the attempt,
    whenever the clone produced a workspace, whether the attempt then
    resolves or rejects; [cleanup] catches its own errors, so the line
    [Workspace cleaned up] is logged after it in every case.  When the clone
    itself rejects there is nothing to remove: the attempt rejects with the
    clone's message, the deployment goes [cloning], [failed], and neither
    the container daemon nor [cleanup] is called. *)
Theorem executeDeployment_cleans_workspace (job : DeploymentJobData)
    (o : pipelineOracle) :
  let run := executeDeployment job o in
  match (cloneStep job o).2 with
  | inl dir =>
      ∃ ev, run.1 = ev ++ [Cleanup dir; Log "info" "cleanup" "Workspace cleaned up"]
            ∧ existsb isCleanup ev = false
            ∧ dir = Container.workspacePath workspaceBase (workspaceId o)
  | inr message =>
      run.2 = inr message
      ∧ statusUpdates run.1 = [Cloning; Failed]
      ∧ existsb isCleanup run.1 = false
      ∧ existsb isDocker run.1 = false
  end.
Proof.
  intros run. subst run. unfold executeDeployment, cleanupEvents.
  pose proof (pipeline_no_cleanup job o) as Hnc. unfold avoids in Hnc.
  destruct (cloneStep job o).2 as [dir|message] eqn:Hclone.
  - match goal with
    | |- context [tryCatch ?m ?h] =>
        pose proof (tryCatch_events m h) as He; destruct (tryCatch m h) as [ev r]
    end.
    cbn [fst snd] in *. exists ev. split_and!; [done| |].
    + subst ev. rewrite existsb_app, Hnc. by destruct (pipeline job o).2.
    + revert Hclone. unfold cloneStep.
      pose proof (Container.cloneRepository_resolved_dir (git o) workspaceBase
                    (workspaceId o) dir (Some (branch job))) as Hw.
      destruct (Container.cloneRepository _ _ _ _) as [evc rc]. cbn [fst snd] in *.
      intros ->. by apply Hw.
  - assert (Hp : (pipeline job o).2 = inr message
                 ∧ statusUpdates (pipeline job o).1 = [Cloning]
                 ∧ existsb isDocker (pipeline job o).1 = false).
    { unfold pipeline.
      pose proof (cloneStep_quiet job o) as Hq. unfold quiet in Hq.
      pose proof (cloneStep_no_docker job o) as Hd.
      destruct (cloneStep job o) as [evc r]. cbn [fst snd] in *. subst r.
      trace_steps. by rewrite Hq, Hd. }
    destruct Hp as (Hr & Hs & Hd).
    match goal with
    | |- context [tryCatch ?m ?h] =>
        pose proof (tryCatch_events m h) as He; pose proof (tryCatch_result m h) as Ht;
        destruct (tryCatch m h) as [ev r]
    end.
    cbn [fst snd] in *. subst ev r. rewrite Hr in *. revert Hnc. trace_steps.
    intros Hnc. rewrite Hs, Hd, Hnc, app_nil_r. done.
Qed.

End Worker.

(** ** Credential vault: [credential.service.ts] *)

Module Vault.

(** *** Bytes, hex and [split] *)

Definition bytes : Type := list ascii.

Definition axor (a b : ascii) : ascii :=
  let '(Ascii a0 a1 a2 a3 a4 a5 a6 a7) := a in
  let '(Ascii b0 b1 b2 b3 b4 b5 b6 b7) := b in
  Ascii (xorb a0 b0) (xorb a1 b1) (xorb a2 b2) (xorb a3 b3)
        (xorb a4 b4) (xorb a5 b5) (xorb a6 b6) (xorb a7 b7).

Definition xorBytes (x y : bytes) : bytes := zip_with axor x y.

(** One lower-case hex digit, as [buf.toString('hex')] prints it. *)
Definition hexDigit (n : nat) : ascii :=
  if (n <? 10) then ascii_of_nat (48 + n) else ascii_of_nat (87 + n).

(** The value of a hex digit of either case, as the hex decoder reads it. *)
Definition hexValue (c : ascii) : option nat :=
  let n := nat_of_ascii c in
  if (48 <=? n) && (n <=? 57) then Some (n - 48)
  else if (97 <=? n) && (n <=? 102) then Some (n - 87)
  else if (65 <=? n) && (n <=? 70) then Some (n - 55)
  else None.

(** [buf.toString('hex')] *)
Fixpoint toHex (b : bytes) : string :=
  match b with
  | [] => ""
  | c :: rest =>
      String (hexDigit (nat_of_ascii c / 16))
        (String (hexDigit (nat_of_ascii c mod 16)) (toHex rest))
  end.

(** [Buffer.from(s, 'hex')]: decoding stops at the first pair that is not
    two hex digits; a trailing single digit is dropped. *)
Fixpoint fromHex (s : string) : bytes :=
  match s with
  | String h (String l rest) =>
      match hexValue h, hexValue l with
      | Some x, Some y => ascii_of_nat (16 * x + y) :: fromHex rest
      | _, _ => []
      end
  | _ => []
  end.

(** [s.split(sep)] for a one-character separator. *)
Fixpoint split (sep : ascii) (s : string) : list string :=
  match s with
  | EmptyString => [""]
  | String c rest =>
      if Ascii.eqb c sep then "" :: split sep rest
      else match split sep rest with
           | p :: ps => String c p :: ps
           | [] => [String c ""]
           end
  end.

(** *** [aes-256-cbc] *)

(** PKCS#7 padding to a whole number of 16-byte blocks. *)
Definition pkcs7Pad (m : bytes) : bytes :=
  let p := 16 - length m mod 16 in
  m ++ replicate p (ascii_of_nat p).

(** Removal of the padding; [None] is OpenSSL's [bad decrypt]. *)
Definition pkcs7Unpad (m : bytes) : option bytes :=
  match last m with
  | None => None
  | Some c =>
      let p := nat_of_ascii c in
      if (1 <=? p) && (p <=? 16) && (p <=? length m)
         && forallb (Ascii.eqb c) (drop (length m - p) m)
      then Some (take (length m - p) m)
      else None
  end.

(** The 16-byte blocks of a message; [fuel] bounds the number of blocks. *)
Fixpoint blocksOf (fuel : nat) (m : bytes) : list bytes :=
  match fuel with
  | 0 => []
  | S fuel' =>
      match m with
      | [] => []
      | _ => take 16 m :: blocksOf fuel' (drop 16 m)
      end
  end.

Definition blocks (m : bytes) : list bytes := blocksOf (length m) m.

(** An attacker who can write the stored value: the listed bytes of the
    nonce are xor-ed with a mask, the rest is left as it is. *)
Fixpoint xorPrefix (mask l : bytes) : bytes :=
  match mask, l with
  | d :: mask', a :: l' => axor a d :: xorPrefix mask' l'
  | _, _ => l
  end.

Definition tamperNonce (mask : bytes) (stored : string) : string :=
  let parts := split ":" stored in
  toHex (xorPrefix mask (fromHex (default "" (parts !! 0))))
  +:+ ":" +:+ default "" (parts !! 1).

(** *** Facts about the encodings *)

Lemma hex_byte (c : ascii) :
  hexValue (hexDigit (nat_of_ascii c / 16)) = Some (nat_of_ascii c / 16)
  ∧ hexValue (hexDigit (nat_of_ascii c mod 16)) = Some (nat_of_ascii c mod 16)
  ∧ ascii_of_nat (16 * (nat_of_ascii c / 16) + nat_of_ascii c mod 16) = c
  ∧ Ascii.eqb (hexDigit (nat_of_ascii c / 16)) ":" = false
  ∧ Ascii.eqb (hexDigit (nat_of_ascii c mod 16)) ":" = false.
Proof. destruct c as [[] [] [] [] [] [] [] []]; vm_compute; done. Qed.

Lemma fromHex_toHex (b : bytes) : fromHex (toHex b) = b.
Proof.
  induction b as [|c b IH]; [done|].
  destruct (hex_byte c) as (Hh & Hl & Hc & _).
  cbn [toHex fromHex]. rewrite Hh, Hl, Hc, IH. done.
Qed.

Lemma split_sep (sep : ascii) (s : string) :
  split sep (String sep s) = "" :: split sep s.
Proof. cbn [split]. by rewrite Ascii.eqb_refl. Qed.

Lemma split_toHex (b : bytes) : split ":" (toHex b) = [toHex b].
Proof.
  induction b as [|c b IH]; [done|].
  destruct (hex_byte c) as (_ & _ & _ & Hh & Hl).
  cbn [toHex split]. rewrite Hh, Hl, IH. done.
Qed.

Lemma split_stored (a b : bytes) :
  split ":" (toHex a +:+ ":" +:+ toHex b) = [toHex a; toHex b].
Proof.
  induction a as [|c a IH].
  - change (split ":" (String ":" (toHex b)) = [""; toHex b]).
    by rewrite split_sep, split_toHex.
  - destruct (hex_byte c) as (_ & _ & _ & Hh & Hl).
    change (toHex (c :: a) +:+ ":" +:+ toHex b)
      with (String (hexDigit (nat_of_ascii c / 16))
              (String (hexDigit (nat_of_ascii c mod 16))
                 (toHex a +:+ ":" +:+ toHex b))).
    cbn [split]. rewrite Hh, Hl, IH. done.
Qed.

Lemma xorb_cancel (x y : bool) : xorb (xorb x y) y = x.
Proof. by destruct x, y. Qed.

Lemma xorb_shift (x y d : bool) : xorb (xorb x y) (xorb y d) = xorb x d.
Proof. by destruct x, y, d. Qed.

Lemma axor_cancel (a b : ascii) : axor (axor a b) b = a.
Proof. destruct a, b. simpl. by rewrite !xorb_cancel. Qed.

Lemma axor_shift (a b d : ascii) : axor (axor a b) (axor b d) = axor a d.
Proof. destruct a, b, d. simpl. by rewrite !xorb_shift. Qed.

Lemma xorBytes_length (x y : bytes) :
  length x = length y → length (xorBytes x y) = length x.
Proof. intros H. unfold xorBytes. rewrite length_zip_with. lia. Qed.

(** Mixing with a tampered vector leaves the mask on the block. *)
Lemma xorBytes_tampered (mask : bytes) : ∀ p iv : bytes,
  length p = length iv →
  xorBytes (xorBytes p iv) (xorPrefix mask iv) = xorPrefix mask p.
Proof.
  induction mask as [|d mask IH]; intros p iv Hlen.
  - simpl. destruct iv; simpl. 
    + by destruct p. 
    + revert Hlen. generalize (a :: iv). clear. intros iv. revert iv.
      induction p as [|x p IH]; intros [|y iv] Hlen; try done.
      simpl in *. rewrite axor_cancel. f_equal. apply IH. lia.
  - destruct p as [|x p], iv as [|y iv]; try done.
    simpl in *. rewrite axor_shift. f_equal. apply IH. lia.
Qed.

Lemma xorBytes_cancel (p iv : bytes) :
  length p = length iv → xorBytes (xorBytes p iv) iv = p.
Proof. intros H. by apply (xorBytes_tampered [] p iv). Qed.

Definition whole (bs : list bytes) : Prop := Forall (λ b, length b = 16) bs.

Lemma whole_length (bs : list bytes) : whole bs → length (concat bs) = 16 * length bs.
Proof.
  induction 1 as [|b bs Hb _ IH]; [done|].
  simpl. rewrite length_app, IH, Hb. lia.
Qed.

Lemma blocksOf_concat (bs : list bytes) : ∀ fuel,
  whole bs → length (concat bs) ≤ fuel → blocksOf fuel (concat bs) = bs.
Proof.
  induction bs as [|b bs IH]; intros fuel Hw Hf.
  - by destruct fuel.
  - apply Forall_cons in Hw as [Hb Hw]. simpl in Hf. rewrite length_app in Hf.
    destruct fuel as [|fuel]; [lia|]. cbn [blocksOf concat].
    destruct (b ++ concat bs) as [|x l] eqn:E.
    { apply (f_equal length) in E. rewrite length_app in E. simpl in E. lia. }
    rewrite <- E. rewrite take_app_length' by done. rewrite drop_app_length' by done.
    rewrite IH; [done|done|lia].
Qed.

Lemma blocksOf_whole (fuel : nat) : ∀ (m : bytes) (q : nat),
  length m = 16 * q → length m ≤ fuel →
  whole (blocksOf fuel m) ∧ concat (blocksOf fuel m) = m.
Proof.
  induction fuel as [|fuel IH]; intros m q Hq Hf.
  - destruct m; [by split; [constructor|]|simpl in Hf; lia].
  - destruct m as [|x m]; [by split; [constructor|]|]. cbn [blocksOf].
    assert (Hq' : 1 ≤ q) by (simpl in Hq; lia).
    destruct (IH (drop 16 (x :: m)) (q - 1)) as [Hw Hc].
    + rewrite length_drop. lia.
    + rewrite length_drop. simpl in *. lia.
    + split.
      * apply Forall_cons. split; [|done]. rewrite length_take. lia.
      * cbn [concat]. rewrite Hc. apply take_drop.
Qed.

Lemma pkcs7Pad_length (m : bytes) :
  length (pkcs7Pad m) = 16 * (length m / 16 + 1).
Proof.
  unfold pkcs7Pad. rewrite length_app, length_replicate.
  pose proof (Nat.div_mod_eq (length m) 16).
  pose proof (Nat.mod_upper_bound (length m) 16). lia.
Qed.

(** Unpadding removes exactly the padding, whatever precedes it. *)
Lemma pkcs7Unpad_padded (m : bytes) (p : nat) :
  1 ≤ p ≤ 16 → pkcs7Unpad (m ++ replicate p (ascii_of_nat p)) = Some m.
Proof.
  intros Hp. unfold pkcs7Unpad.
  destruct p as [|p]; [lia|].
  rewrite replicate_S_end at 1. rewrite app_assoc, last_snoc.
  rewrite nat_ascii_embedding by lia.
  rewrite length_app, length_replicate.
  replace (length m + S p - S p) with (length m) by lia.
  rewrite drop_app_length, take_app_length.
  assert (Hall : forallb (Ascii.eqb (ascii_of_nat (S p))) (replicate (S p) (ascii_of_nat (S p))) = true).
  { generalize (S p) at 2. intros n. induction n as [|n IH]; [done|].
    simpl. by rewrite Ascii.eqb_refl. }
  rewrite Hall.
  destruct (Nat.leb_spec 1 (S p)); [|lia].
  destruct (Nat.leb_spec (S p) 16); [|lia].
  destruct (Nat.leb_spec (S p) (length m + S p)); [|lia]. done.
Qed.

Lemma xorPrefix_length (mask : bytes) : ∀ l : bytes,
  length (xorPrefix mask l) = length l.
Proof.
  induction mask as [|d mask IH]; intros [|a l]; try done.
  simpl. by rewrite IH.
Qed.

Lemma xorPrefix_app (mask : bytes) : ∀ l r : bytes,
  length mask ≤ length l → xorPrefix mask (l ++ r) = xorPrefix mask l ++ r.
Proof.
  induction mask as [|d mask IH]; intros l r Hlen.
  - by destruct l.
  - destruct l as [|a l]; [simpl in Hlen; lia|].
    simpl in *. rewrite IH; [done|lia].
Qed.

Lemma pkcs7Unpad_pad (m : bytes) : pkcs7Unpad (pkcs7Pad m) = Some m.
Proof.
  unfold pkcs7Pad. apply pkcs7Unpad_padded.
  pose proof (Nat.mod_upper_bound (length m) 16). lia.
Qed.
(** *** The credential table *)

(** The [UserCredentials] entity; [createdAt] is a clock reading. *)
Record UserCredentials := {
  id : string;
  userId : string;
  provider : string;
  name : option string;
  encryptedCredentials : string;
  isActive : bool;
  isValid : bool;
  createdAt : nat;
}.

(** [where: { provider, isActive: true }]: the owner is not part of the filter. *)
Definition activeFor (p : string) (c : UserCredentials) : bool :=
  String.eqb (provider c) p && isActive c.

(** [order: { createdAt: 'DESC' }] with [findOne]'s limit of one row: a row
    with the greatest [createdAt]; among equals the table order decides. *)
Fixpoint newest (rows : list UserCredentials) : option UserCredentials :=
  match rows with
  | [] => None
  | c :: rest =>
      match newest rest with
      | Some d => if createdAt c <? createdAt d then Some d else Some c
      | None => Some c
      end
  end.

(** How an [async] method ends. *)
Inductive completion (A : Type) :=
| Resolves (value : A)
| Rejects (message : string).
Arguments Resolves {A} value.
Arguments Rejects {A} message.

Section Cipher.

(** Node's [crypto] module is not part of the repository.  Its key
    derivation and the AES block function are parameters; the chaining and
    the padding that the name [aes-256-cbc] stands for are written out. *)
Context (scryptSync : string → string → nat → bytes).
Context (aesEncryptBlock aesDecryptBlock : bytes → bytes → bytes).

(** [this.encryptionKey] *)
Context (encryptionKey : string).

(** Cipher block chaining: each block is mixed with the previous
    ciphertext block, the first with the initialization vector. *)
Fixpoint cbcEncryptBlocks (key prev : bytes) (plain : list bytes) : list bytes :=
  match plain with
  | [] => []
  | b :: rest =>
      let c := aesEncryptBlock key (xorBytes b prev) in
      c :: cbcEncryptBlocks key c rest
  end.

Fixpoint cbcDecryptBlocks (key prev : bytes) (cipher : list bytes) : list bytes :=
  match cipher with
  | [] => []
  | c :: rest => xorBytes (aesDecryptBlock key c) prev :: cbcDecryptBlocks key c rest
  end.

(** [createCipheriv('aes-256-cbc', key, iv)], [update] and [final]. *)
Definition cipherAes256Cbc (key iv plain : bytes) : bytes :=
  concat (cbcEncryptBlocks key iv (blocks (pkcs7Pad plain))).

(** [createDecipheriv('aes-256-cbc', key, iv)], [update] and [final];
    [None] when one of them throws: an initialization vector that is not
    16 bytes, input that is empty or not a whole number of blocks, or bad
    padding. *)
Definition decipherAes256Cbc (key iv cipher : bytes) : option bytes :=
  if (length iv =? 16) && negb (length cipher =? 0)
     && (length cipher mod 16 =? 0)
  then pkcs7Unpad (concat (cbcDecryptBlocks key iv (blocks cipher)))
  else None.

(** [encrypt(text)], with [iv] the 16 bytes drawn by [crypto.randomBytes(16)].
    [text] stands for its UTF-8 bytes. *)
Definition encrypt (iv : bytes) (text : string) : string :=
  let key := scryptSync encryptionKey "salt" 32 in
  let encrypted := toHex (cipherAes256Cbc key iv (list_ascii_of_string text)) in
  toHex iv +:+ ":" +:+ encrypted.

(** [decrypt(encryptedText)]; [None] when it throws. *)
Definition decrypt (encryptedText : string) : option string :=
  let parts := split ":" encryptedText in
  let iv := fromHex (default "" (parts !! 0)) in
  match parts !! 1 with
  | None => None
  | Some encrypted =>
      let key := scryptSync encryptionKey "salt" 32 in
      string_of_list_ascii <$> decipherAes256Cbc key iv (fromHex encrypted)
  end.

(** *** [getFirstCredentialForProvider] *)

(** [JSON.parse]; [None] when it throws. *)
Context {json : Type} (JSON_parse : string → option json).

(** What the lookup resolves to when it finds a credential. *)
Record foundCredential := {
  foundId : string;
  foundProvider : string;
  foundCredentials : json;
  foundIsActive : bool;
}.

(** The [try] block of [getFirstCredentialForProvider]; the table is
    [inr message] when the query itself rejects. *)
Definition lookupFirst (table : list UserCredentials + string) (p : string)
    : completion (option foundCredential) :=
  match table with
  | inr message => Rejects message
  | inl rows =>
      match newest (List.filter (activeFor p) rows) with
      | None => Resolves None
      | Some credential =>
          match decrypt (encryptedCredentials credential) with
          | None => Rejects "bad decrypt"
          | Some decryptedCredentials =>
              match JSON_parse decryptedCredentials with
              | None => Rejects "Unexpected token in JSON"
              | Some parsed =>
                  Resolves (Some {| foundId := id credential;
                                    foundProvider := provider credential;
                                    foundCredentials := parsed;
                                    foundIsActive := isActive credential |})
              end
          end
      end
  end.

(** [getFirstCredentialForProvider(provider)]: the [catch] logs the error
    and returns [null]. *)
Definition getFirstCredentialForProvider (table : list UserCredentials + string)
    (p : string) : completion (option foundCredential) :=
  match lookupFirst table p with
  | Resolves r => Resolves r
  | Rejects _ => Resolves None
  end.

(** *** The cipher round trip *)

(** What is assumed of the block cipher: it maps 16-byte blocks to
    16-byte blocks and decryption undoes encryption under the same key. *)
Hypothesis aes_length : ∀ key b, length b = 16 → length (aesEncryptBlock key b) = 16.
Hypothesis aes_inverse : ∀ key b,
  length b = 16 → aesDecryptBlock key (aesEncryptBlock key b) = b.

Lemma cbc_whole key (bs : list bytes) : ∀ prev,
  whole bs → length prev = 16 → whole (cbcEncryptBlocks key prev bs).
Proof using aes_length.
  induction bs as [|b bs IH]; intros prev Hw Hp; [constructor|].
  apply Forall_cons in Hw as [Hb Hw]. cbn [cbcEncryptBlocks].
  assert (length (aesEncryptBlock key (xorBytes b prev)) = 16) as Hc.
  { apply aes_length. rewrite xorBytes_length; congruence. }
  apply Forall_cons. split; [done|]. by apply IH.
Qed.

Lemma cbc_roundtrip key (bs : list bytes) : ∀ prev,
  whole bs → length prev = 16 →
  cbcDecryptBlocks key prev (cbcEncryptBlocks key prev bs) = bs.
Proof using aes_length aes_inverse.
  induction bs as [|b bs IH]; intros prev Hw Hp; [done|].
  apply Forall_cons in Hw as [Hb Hw]. cbn [cbcEncryptBlocks cbcDecryptBlocks].
  assert (length (xorBytes b prev) = 16) as Hx by (rewrite xorBytes_length; congruence).
  rewrite aes_inverse, xorBytes_cancel by congruence.
  f_equal. apply IH; [done|]. by apply aes_length.
Qed.

(** Decrypting under a masked vector: the mask lands on the first block. *)
Lemma cbc_tampered key (mask iv b : bytes) (bs : list bytes) :
  whole (b :: bs) → length iv = 16 →
  cbcDecryptBlocks key (xorPrefix mask iv) (cbcEncryptBlocks key iv (b :: bs))
  = xorPrefix mask b :: bs.
Proof using aes_length aes_inverse.
  intros Hw Hiv. apply Forall_cons in Hw as [Hb Hw].
  cbn [cbcEncryptBlocks cbcDecryptBlocks].
  assert (length (xorBytes b iv) = 16) as Hx by (rewrite xorBytes_length; congruence).
  rewrite aes_inverse, xorBytes_tampered by congruence.
  f_equal. apply cbc_roundtrip; [done|]. by apply aes_length.
Qed.

Lemma decipher_tampered key (iv mask m : bytes) :
  length iv = 16 → length mask ≤ 16 → length mask ≤ length m →
  decipherAes256Cbc key (xorPrefix mask iv) (cipherAes256Cbc key iv m)
  = Some (xorPrefix mask m).
Proof using aes_length aes_inverse.
  intros Hiv Hmask16 Hmask. unfold decipherAes256Cbc, cipherAes256Cbc, blocks.
  destruct (blocksOf_whole (length (pkcs7Pad m)) (pkcs7Pad m) (length m / 16 + 1))
    as [Hw Hc]; [apply pkcs7Pad_length|done|].
  destruct (blocksOf (length (pkcs7Pad m)) (pkcs7Pad m)) as [|b bs] eqn:Hbs.
  { apply (f_equal length) in Hc. rewrite pkcs7Pad_length in Hc. simpl in Hc. lia. }
  pose proof (cbc_whole key (b :: bs) iv Hw Hiv) as Hcw.
  rewrite xorPrefix_length, Hiv, (whole_length _ Hcw).
  rewrite blocksOf_concat by (done || by rewrite (whole_length _ Hcw)).
  rewrite cbc_tampered by done.
  assert (Hlen : length (cbcEncryptBlocks key iv (b :: bs)) = S (length bs)).
  { cbn [cbcEncryptBlocks length]. f_equal.
    generalize (aesEncryptBlock key (xorBytes b iv)). clear.
    induction bs as [|x bs IH]; intros prev; [done|]. simpl. f_equal. apply IH. }
  rewrite Hlen.
  replace (16 * S (length bs) mod 16) with 0
    by (symmetry; rewrite Nat.mul_comm; apply Nat.Div0.mod_mul).
  cbn [Nat.eqb andb negb concat].
  assert (Hb : length b = 16) by (by apply Forall_cons in Hw as [? _]).
  rewrite <- xorPrefix_app by lia.
  change (b ++ concat bs) with (concat (b :: bs)). rewrite Hc.
  unfold pkcs7Pad. rewrite xorPrefix_app by done.
  apply pkcs7Unpad_padded. pose proof (Nat.mod_upper_bound (length m) 16). lia.
Qed.

(** The stored value is the hex nonce, a colon, the hex ciphertext. *)
Lemma split_encrypt (iv : bytes) (text : string) :
  split ":" (encrypt iv text)
  = [toHex iv;
     toHex (cipherAes256Cbc (scryptSync encryptionKey "salt" 32) iv
              (list_ascii_of_string text))].
Proof. apply split_stored. Qed.

(** C4: decryption undoes encryption, for every plaintext and every
    16-byte nonce; the stored value embeds the nonce, so two encryptions of
    one plaintext under different nonces are different stored values. *)
Theorem decrypt_encrypt_fresh_nonce (iv : bytes) (text : string) :
  length iv = 16 →
  decrypt (encrypt iv text) = Some text
  ∧ fromHex (default "" (split ":" (encrypt iv text) !! 0)) = iv
  ∧ ∀ iv', length iv' = 16 → iv' ≠ iv → encrypt iv' text ≠ encrypt iv text.
Proof using aes_length aes_inverse.
  intros Hiv. split_and!.
  - unfold decrypt. rewrite split_encrypt. cbn [lookup list_lookup default from_option Datatypes.id].
    rewrite !fromHex_toHex.
    pose proof (decipher_tampered (scryptSync encryptionKey "salt" 32) iv []
                  (list_ascii_of_string text) Hiv) as Hround.
    cbn [xorPrefix length] in Hround. rewrite Hround by lia.
    cbn [fmap option_fmap option_map]. f_equal.
    apply string_of_list_ascii_of_string.
  - rewrite split_encrypt. apply fromHex_toHex.
  - intros iv' _ Hne Heq. apply Hne.
    apply (f_equal (split ":")) in Heq. rewrite !split_encrypt in Heq.
    injection Heq as Heq _. apply (f_equal fromHex) in Heq.
    by rewrite !fromHex_toHex in Heq.
Qed.

(** C9 fails on the code: the cipher is [aes-256-cbc], which carries no
    authentication tag.  Whoever xors a mask into the stored nonce gets a
    value that decrypts without error, to the plaintext with the same mask
    xor-ed into its first bytes. *)
Theorem tampered_nonce_alters_plaintext (iv mask : bytes) (text : string) :
  length iv = 16 → length mask ≤ 16 →
  length mask ≤ length (list_ascii_of_string text) →
  let altered := xorPrefix mask (list_ascii_of_string text) in
  decrypt (tamperNonce mask (encrypt iv text)) = Some (string_of_list_ascii altered)
  ∧ (altered ≠ list_ascii_of_string text →
     decrypt (tamperNonce mask (encrypt iv text)) ≠ Some text).
Proof using aes_length aes_inverse.
  intros Hiv Hmask16 Hmask altered.
  assert (Hdec : decrypt (tamperNonce mask (encrypt iv text))
                 = Some (string_of_list_ascii altered)).
  { unfold tamperNonce. rewrite split_encrypt.
    cbn [lookup list_lookup default from_option Datatypes.id]. rewrite fromHex_toHex.
    unfold decrypt. rewrite split_stored.
    cbn [lookup list_lookup default from_option Datatypes.id]. rewrite !fromHex_toHex.
    by rewrite decipher_tampered. }
  split; [done|]. intros Hne. rewrite Hdec. intros [= Heq]. apply Hne.
  by rewrite <- Heq, list_ascii_of_string_of_list_ascii.
Qed.

(** *** The auto-credential lookup *)

Lemma newest_greatest (rows : list UserCredentials) :
  match newest rows with
  | None => rows = []
  | Some c => c ∈ rows ∧ ∀ c', c' ∈ rows → createdAt c' ≤ createdAt c
  end.
Proof.
  induction rows as [|c rows IH]; [done|]. cbn [newest].
  destruct (newest rows) as [d|].
  - destruct IH as [Hd Hmax]. destruct (Nat.ltb_spec (createdAt c) (createdAt d)).
    + split; [by right|]. intros c' [->|Hc']%elem_of_cons; [lia|by apply Hmax].
    + split; [by left|]. intros c' [->|Hc']%elem_of_cons; [lia|].
      specialize (Hmax c' Hc'). lia.
  - subst rows. split; [by left|]. by intros c' ->%list_elem_of_singleton.
Qed.

Lemma elem_of_activeFor (p : string) (rows : list UserCredentials) (c : UserCredentials) :
  c ∈ List.filter (activeFor p) rows ↔ c ∈ rows ∧ provider c = p ∧ isActive c = true.
Proof.
  rewrite !list_elem_of_In, filter_In. unfold activeFor.
  rewrite andb_true_iff, String.eqb_eq. done.
Qed.

(** C10: the lookup never rejects.  It resolves to [null] when the query
    fails and when the provider has no active credential.  Otherwise it
    looks at one credential only, an active one of that provider that is at
    least as recent as every other, whoever owns it: when that one decrypts
    and parses the lookup resolves to it, with the parsed secret; when it
    does not decrypt, or does not parse, the lookup resolves to [null]. *)
Theorem getFirstCredentialForProvider_newest_active
    (table : list UserCredentials + string) (p : string) :
  (∃ r, getFirstCredentialForProvider table p = Resolves r)
  ∧ (∀ message, table = inr message →
     getFirstCredentialForProvider table p = Resolves None)
  ∧ (∀ rows, table = inl rows →
     ((∀ c, c ∈ rows → provider c = p → isActive c = false) →
      getFirstCredentialForProvider table p = Resolves None)
     ∧ (∀ found, getFirstCredentialForProvider table p = Resolves (Some found) →
        ∃ c, c ∈ rows ∧ provider c = p ∧ isActive c = true
             ∧ (∀ c', c' ∈ rows → provider c' = p → isActive c' = true →
                  createdAt c' ≤ createdAt c)
             ∧ foundId found = id c ∧ foundProvider found = p
             ∧ foundIsActive found = true
             ∧ ∃ text, decrypt (encryptedCredentials c) = Some text
                       ∧ JSON_parse text = Some (foundCredentials found))
     ∧ (∀ c, c ∈ rows → provider c = p → isActive c = true →
        (∀ c', c' ∈ rows → provider c' = p → isActive c' = true →
           c' = c ∨ createdAt c' < createdAt c) →
        getFirstCredentialForProvider table p
        = Resolves
            match decrypt (encryptedCredentials c) with
            | None => None
            | Some text =>
                match JSON_parse text with
                | None => None
                | Some parsed =>
                    Some {| foundId := id c; foundProvider := p;
                            foundCredentials := parsed; foundIsActive := true |}
                end
            end)
     ∧ ((∃ c, c ∈ rows ∧ provider c = p ∧ isActive c = true) →
        (∀ c, c ∈ rows → provider c = p → isActive c = true →
           ∃ text parsed, decrypt (encryptedCredentials c) = Some text
                          ∧ JSON_parse text = Some parsed) →
        ∃ found, getFirstCredentialForProvider table p = Resolves (Some found))).
Proof.
  split_and!.
  - unfold getFirstCredentialForProvider. destruct (lookupFirst table p); eauto.
  - by intros message ->.
  - intros rows ->. unfold getFirstCredentialForProvider, lookupFirst.
    pose proof (newest_greatest (List.filter (activeFor p) rows)) as Hn.
    destruct (newest (List.filter (activeFor p) rows)) as [d|].
    + destruct Hn as [Hd Hmax]. apply elem_of_activeFor in Hd as (Hd & Hp & Ha).
      split_and!.
      * intros Hnone. specialize (Hnone d Hd Hp). congruence.
      * intros found Hfound. exists d.
        destruct (decrypt (encryptedCredentials d)) as [text|]; [|done].
        destruct (JSON_parse text) as [parsed|] eqn:Hparse; [|done].
        injection Hfound as <-. split_and!; try done.
        -- intros c' Hc' Hp' Ha'. apply Hmax. by apply elem_of_activeFor.
        -- by exists text.
      * intros c Hc Hpc Hac Hnewest.
        assert (d = c) as ->.
        { destruct (Hnewest d Hd Hp Ha) as [?|Hlt]; [done|].
          assert (createdAt c ≤ createdAt d); [|lia].
          apply Hmax. by apply elem_of_activeFor. }
        destruct (decrypt (encryptedCredentials c)) as [text|]; [|done].
        destruct (JSON_parse text) as [parsed|]; [|done].
        by rewrite Hp, Ha.
      * intros _ Hall. destruct (Hall d Hd Hp Ha) as (text & parsed & -> & ->).
        by eexists.
    + assert (Hnone : ∀ c, c ∈ rows → provider c = p → isActive c = true → False).
      { intros c Hc Hpc Hac.
        assert (c ∈ List.filter (activeFor p) rows) as Hin by (by apply elem_of_activeFor).
        rewrite Hn in Hin. by apply elem_of_nil in Hin. }
      split_and!.
      * done.
      * done.
      * intros c Hc Hpc Hac _. by destruct (Hnone c).
      * intros (c & Hc & Hpc & Hac) _. by destruct (Hnone c).
Qed.

End Cipher.

(** A stand-in for the block cipher and the key derivation, to run the
    vault on concrete values: any length-preserving invertible block
    function will do. *)
Definition toyScrypt (password salt : string) (n : nat) : bytes :=
  take n (list_ascii_of_string (password +:+ salt) ++ replicate n "000"%char).
Definition toyEncryptBlock (key block : bytes) : bytes := reverse block.
Definition toyDecryptBlock (key block : bytes) : bytes := reverse block.

Lemma toy_length (key b : bytes) : length b = 16 → length (toyEncryptBlock key b) = 16.
Proof. intros H. unfold toyEncryptBlock. by rewrite length_reverse. Qed.

Lemma toy_inverse (key b : bytes) :
  length b = 16 → toyDecryptBlock key (toyEncryptBlock key b) = b.
Proof. intros _. apply reverse_involutive. Qed.

(** [JSON.stringify({ token: 'abc' })] and a nonce. *)
Definition quoted (s : string) : string :=
  String (ascii_of_nat 34) s +:+ String (ascii_of_nat 34) "".
Definition sampleSecret : string :=
  "{" +:+ quoted "token" +:+ ":" +:+ quoted "abc" +:+ "}".
Definition sampleNonce : bytes := list_ascii_of_string "0123456789abcdef".

(** The mask that flips the lowest bit of the eleventh byte. *)
Definition flipEleventh : bytes := replicate 10 (ascii_of_nat 0) ++ [ascii_of_nat 1].

Lemma decrypt_encrypt_fresh_nonce_witness :
  decrypt toyScrypt toyDecryptBlock "master"
    (encrypt toyScrypt toyEncryptBlock "master" sampleNonce sampleSecret)
  = Some sampleSecret
  ∧ fromHex (default ""
       (split ":" (encrypt toyScrypt toyEncryptBlock "master" sampleNonce sampleSecret)
        !! 0)) = sampleNonce
  ∧ ∀ iv', length iv' = 16 → iv' ≠ sampleNonce →
      encrypt toyScrypt toyEncryptBlock "master" iv' sampleSecret
      ≠ encrypt toyScrypt toyEncryptBlock "master" sampleNonce sampleSecret.
Proof.
  apply (decrypt_encrypt_fresh_nonce toyScrypt toyEncryptBlock toyDecryptBlock
           "master" toy_length toy_inverse sampleNonce sampleSecret).
  reflexivity.
Defined.

(** The stored token [abc] is read back as another token, without any error. *)
Lemma tampered_nonce_alters_plaintext_witness :
  decrypt toyScrypt toyDecryptBlock "master"
    (tamperNonce flipEleventh
       (encrypt toyScrypt toyEncryptBlock "master" sampleNonce sampleSecret))
  = Some ("{" +:+ quoted "token" +:+ ":" +:+ quoted "`bc" +:+ "}")
  ∧ decrypt toyScrypt toyDecryptBlock "master"
      (tamperNonce flipEleventh
         (encrypt toyScrypt toyEncryptBlock "master" sampleNonce sampleSecret))
    ≠ Some sampleSecret.
Proof.
  destruct (tampered_nonce_alters_plaintext toyScrypt toyEncryptBlock toyDecryptBlock
              "master" toy_length toy_inverse sampleNonce flipEleventh sampleSecret)
    as [Hdec Hne]; [reflexivity | vm_compute; lia | vm_compute; lia |].
  split; [exact Hdec|]. apply Hne. vm_compute. discriminate.
Defined.

(** Two owners hold an active Netlify credential; the lookup takes the
    more recent one, which is not the first owner's. *)
Definition twoOwners : list UserCredentials :=
  [ {| id := "c1"; userId := "alice"; provider := "netlify"; name := None;
       encryptedCredentials :=
         encrypt toyScrypt toyEncryptBlock "master" sampleNonce sampleSecret;
       isActive := true; isValid := true; createdAt := 10 |};
    {| id := "c2"; userId := "bob"; provider := "netlify"; name := None;
       encryptedCredentials :=
         encrypt toyScrypt toyEncryptBlock "master" sampleNonce sampleSecret;
       isActive := true; isValid := true; createdAt := 20 |};
    {| id := "c3"; userId := "bob"; provider := "netlify"; name := None;
       encryptedCredentials := "not a ciphertext";
       isActive := false; isValid := false; createdAt := 30 |} ].

Example getFirstCredentialForProvider_two_owners :
  foundId <$>
    (match getFirstCredentialForProvider toyScrypt toyDecryptBlock "master"
             (λ s, Some s) (inl twoOwners) "netlify" with
     | Resolves r => r
     | Rejects _ => None
     end) = Some "c2".
Proof. vm_compute. reflexivity. Qed.

End Vault.

(** ** Log bus: [logging.service.ts] and [logs.controller.ts] *)

Module LogBus.

Inductive logLevel := Info | Warn | Error | Success.

(** [DeploymentLog] *)
Record DeploymentLog := {
  id : string;
  deploymentId : string;
  timestamp : nat;
  level : logLevel;
  message : string;
  step : option string;
}.

(** What an SSE observer is sent through [observer.next]. *)
Inductive sseMessage :=
| LogMessage (log : DeploymentLog)
| Heartbeat (timestamp : nat).

(** What the service did to the disk and to its subscribers, in order. *)
Inductive effect :=
| FileWritten (deploymentId : string) (log : DeploymentLog)
| FileWriteFailed (deploymentId : string) (log : DeploymentLog)
| Notified (observer : nat) (log : DeploymentLog).

(** The service: its two maps, the log files under [logs/deployments], and
    what each observer has received.  A subscriber callback is named by the
    observer it feeds; [journal] records the effects, oldest first. *)
Record service := {
  deploymentLogs : gmap string (list DeploymentLog);
  logSubscribers : gmap string (list nat);
  files : gmap string (list DeploymentLog);
  streams : gmap nat (list sseMessage);
  journal : list effect;
}.

Definition start : service :=
  {| deploymentLogs := ∅; logSubscribers := ∅; files := ∅; streams := ∅; journal := [] |}.

(** The first lines of [addLog]: the entry, stamped by the clock and the
    random suffix. *)
Definition newLog (deploymentId : string) (now : nat) (random : string)
    (level : logLevel) (message : string) (step : option string) : DeploymentLog :=
  {| id := deploymentId +:+ "-" +:+ Js.showNat now +:+ "-" +:+ random;
     deploymentId := deploymentId; timestamp := now; level := level;
     message := message; step := step |}.

(** [observer.next(m)] *)
Definition send (observer : nat) (m : sseMessage)
    (st : gmap nat (list sseMessage)) : gmap nat (list sseMessage) :=
  <[observer := default [] (st !! observer) ++ [m]]> st.

(** [existingLogs.forEach(log => observer.next(...))] *)
Definition replay (observer : nat) (logs : list DeploymentLog)
    (st : gmap nat (list sseMessage)) : gmap nat (list sseMessage) :=
  foldl (λ acc log, send observer (LogMessage log) acc) st logs.

(** [addLog], up to its first suspension: the entry is pushed onto the
    in-memory list, then [persistLog] starts reading the log file. *)
Definition addLogBegin (log : DeploymentLog) (σ : service) : service :=
  let d := deploymentId log in
  {| deploymentLogs :=
       <[d := default [] (deploymentLogs σ !! d) ++ [log]]> (deploymentLogs σ);
     logSubscribers := logSubscribers σ; files := files σ;
     streams := streams σ; journal := journal σ |}.

(** [persistLog]: the file is read (a missing or unreadable file counts as
    empty), the entry appended, the file written back.  A failed write is
    caught and logged; nothing is rethrown. *)
Definition persistLog (writeOk : bool) (log : DeploymentLog) (σ : service) : service :=
  let d := deploymentId log in
  if writeOk then
    {| deploymentLogs := deploymentLogs σ; logSubscribers := logSubscribers σ;
       files := <[d := default [] (files σ !! d) ++ [log]]> (files σ);
       streams := streams σ; journal := journal σ ++ [FileWritten d log] |}
  else
    {| deploymentLogs := deploymentLogs σ; logSubscribers := logSubscribers σ;
       files := files σ; streams := streams σ;
       journal := journal σ ++ [FileWriteFailed d log] |}.

(** [notifySubscribers]: every callback registered for the deployment is
    called with the entry, in registration order. *)
Definition notifySubscribers (log : DeploymentLog) (σ : service) : service :=
  let subscribers := default [] (logSubscribers σ !! deploymentId log) in
  {| deploymentLogs := deploymentLogs σ; logSubscribers := logSubscribers σ;
     files := files σ;
     streams := foldl (λ acc s, send s (LogMessage log) acc) (streams σ) subscribers;
     journal := journal σ ++ ((λ s, Notified s log) <$> subscribers) |}.

(** [addLog], from the point where [persistLog]'s file access completes:
    the rest of [persistLog], then [notifySubscribers]. *)
Definition addLogEnd (writeOk : bool) (log : DeploymentLog) (σ : service) : service :=
  notifySubscribers log (persistLog writeOk log σ).

(** How a call of [addLog] settles. *)
Inductive settled := Fulfilled | RejectedWith (reason : string).


(** [subscribeToLogs]: the callback is pushed onto the deployment's list. *)
Definition subscribeToLogs (d : string) (observer : nat) (σ : service) : service :=
  {| deploymentLogs := deploymentLogs σ;
     logSubscribers :=
       <[d := default [] (logSubscribers σ !! d) ++ [observer]]> (logSubscribers σ);
     files := files σ; streams := streams σ; journal := journal σ |}.

(** The unsubscribe function: [indexOf] and [splice] remove the first
    occurrence of the callback. *)
Fixpoint removeFirst (observer : nat) (subscribers : list nat) : list nat :=
  match subscribers with
  | [] => []
  | s :: rest => if (s =? observer) then rest else s :: removeFirst observer rest
  end.

Definition unsubscribe (d : string) (observer : nat) (σ : service) : service :=
  {| deploymentLogs := deploymentLogs σ;
     logSubscribers := alter (removeFirst observer) d (logSubscribers σ);
     files := files σ; streams := streams σ; journal := journal σ |}.

(** [streamLogs], the subscriber function of the observable.  [getLogs] is
    called first; when the in-memory list is non-empty its promise is
    already resolved, and the replay runs as a microtask right after the
    synchronous part, before any other task.  Otherwise [loadLogsFromFile]
    is waiting for the disk and only the subscription is in place. *)
Definition streamOpen (d : string) (observer : nat) (σ : service) : service :=
  let σ' := subscribeToLogs d observer σ in
  match deploymentLogs σ !! d with
  | Some (log :: logs) =>
      {| deploymentLogs := deploymentLogs σ'; logSubscribers := logSubscribers σ';
         files := files σ';
         streams := replay observer (log :: logs) (streams σ');
         journal := journal σ' |}
  | _ => σ'
  end.

(** [loadLogsFromFile] resumes when the file has been read: the parsed
    list replaces the in-memory one and is replayed; a missing file gives
    an empty replay and leaves the memory alone. *)
Definition streamLoaded (d : string) (observer : nat) (σ : service) : service :=
  match files σ !! d with
  | Some logs =>
      {| deploymentLogs := <[d := logs]> (deploymentLogs σ);
         logSubscribers := logSubscribers σ; files := files σ;
         streams := replay observer logs (streams σ);
         journal := journal σ |}
  | None => σ
  end.

(** The interval timer of [streamLogs]. *)
Definition heartbeat (observer now : nat) (σ : service) : service :=
  {| deploymentLogs := deploymentLogs σ; logSubscribers := logSubscribers σ;
     files := files σ; streams := send observer (Heartbeat now) (streams σ);
     journal := journal σ |}.

(** The process restarts: the maps are lost, the files stay. *)
Definition restart (σ : service) : service :=
  {| deploymentLogs := ∅; logSubscribers := ∅; files := files σ;
     streams := streams σ; journal := journal σ |}.

(** The tasks of the event loop.  Each runs to its next suspension point
    without interruption; a schedule is the order in which they ran. *)
Inductive task :=
| AddLogBegin (log : DeploymentLog)
| AddLogEnd (writeOk : bool) (log : DeploymentLog)
| StreamOpen (d : string) (observer : nat)
| StreamLoaded (d : string) (observer : nat)
| StreamClose (d : string) (observer : nat)
| HeartbeatTick (observer now : nat)
| Restart.

Definition runTask (t : task) (σ : service) : service :=
  match t with
  | AddLogBegin log => addLogBegin log σ
  | AddLogEnd writeOk log => addLogEnd writeOk log σ
  | StreamOpen d observer => streamOpen d observer σ
  | StreamLoaded d observer => streamLoaded d observer σ
  | StreamClose d observer => unsubscribe d observer σ
  | HeartbeatTick observer now => heartbeat observer now σ
  | Restart => restart σ
  end.

Definition run (schedule : list task) (σ : service) : service :=
  foldl (λ acc t, runTask t acc) σ schedule.

(** The log entries an observer received, heartbeats left out. *)
Definition logOf (m : sseMessage) : option DeploymentLog :=
  match m with LogMessage log => Some log | Heartbeat _ => None end.

Definition delivered (observer : nat) (σ : service) : list DeploymentLog :=
  omap logOf (default [] (streams σ !! observer)).

(** The entries appended for a deployment, in the order [addLog] was called. *)
Definition appended (d : string) (schedule : list task) : list DeploymentLog :=
  omap (λ t, match t with
             | AddLogBegin log =>
                 if String.eqb (deploymentId log) d then Some log else None
             | _ => None
             end) schedule.

(** How many callbacks of a list feed the observer. *)
Definition registrations (observer : nat) (subscribers : list nat) : nat :=
  length (filter (λ s, s = observer) subscribers).

(** *** Delivery *)

Lemma send_lookup (s observer : nat) (m : sseMessage) (st : gmap nat (list sseMessage)) :
  default [] (send s m st !! observer)
  = default [] (st !! observer) ++ (if decide (s = observer) then [m] else []).
Proof.
  unfold send. destruct (decide (s = observer)) as [->|Hne].
  - by rewrite lookup_insert_eq.
  - by rewrite lookup_insert_ne, app_nil_r.
Qed.

(** Calling the callbacks of [subscribers] with one message gives each
    observer one copy per registration. *)
Lemma notify_lookup (m : sseMessage) (observer : nat) (subscribers : list nat) :
  ∀ st : gmap nat (list sseMessage),
  default [] (foldl (λ acc s, send s m acc) st subscribers !! observer)
  = default [] (st !! observer) ++ replicate (registrations observer subscribers) m.
Proof.
  unfold registrations.
  induction subscribers as [|s subscribers IH]; intros st; simpl.
  - by rewrite app_nil_r.
  - rewrite IH, send_lookup, filter_cons. destruct (decide (s = observer)); simpl.
    + by rewrite <- app_assoc.
    + by rewrite app_nil_r.
Qed.

Lemma replay_lookup (observer s : nat) (logs : list DeploymentLog) :
  ∀ st : gmap nat (list sseMessage),
  default [] (replay observer logs st !! s)
  = default [] (st !! s) ++ (if decide (observer = s) then LogMessage <$> logs else []).
Proof.
  unfold replay. induction logs as [|log logs IH]; intros st.
  - simpl. destruct (decide _); by rewrite app_nil_r.
  - cbn [foldl]. rewrite IH, send_lookup. destruct (decide (observer = s)).
    + by rewrite fmap_cons, <- app_assoc.
    + by rewrite !app_nil_r.
Qed.

Lemma delivered_streams (observer : nat) (σ σ' : service) (ms : list sseMessage) :
  default [] (streams σ' !! observer) = default [] (streams σ !! observer) ++ ms →
  delivered observer σ' = delivered observer σ ++ omap logOf ms.
Proof. intros H. unfold delivered. by rewrite H, omap_app. Qed.

Lemma omap_replicate_log (n : nat) (log : DeploymentLog) :
  omap logOf (replicate n (LogMessage log)) = replicate n log.
Proof.
  induction n as [|n IH]; [done|].
  change (omap logOf (replicate (S n) (LogMessage log)))
    with (log :: omap logOf (replicate n (LogMessage log))).
  by rewrite IH.
Qed.

Lemma omap_logs (logs : list DeploymentLog) : omap logOf (LogMessage <$> logs) = logs.
Proof.
  induction logs as [|log logs IH]; [done|].
  change (omap logOf (LogMessage <$> log :: logs))
    with (log :: omap logOf (LogMessage <$> logs)).
  by rewrite IH.
Qed.

(** An uninterrupted append hands each observer of the deployment one copy
    per registration, whether or not the file was written. *)
Lemma addLog_delivered (writeOk : bool) (log : DeploymentLog) (σ : service)
    (observer : nat) :
  delivered observer (addLogEnd writeOk log (addLogBegin log σ))
  = delivered observer σ
    ++ replicate
         (registrations observer (default [] (logSubscribers σ !! deploymentId log)))
         log.
Proof.
  rewrite <- omap_replicate_log. apply delivered_streams.
  destruct writeOk; simpl; apply notify_lookup.
Qed.

(** *** C6: durability and notification *)

Definition firstEntry : DeploymentLog :=
  newLog "d1" 100 "k3x9q0z1a" Info "Starting deployment process..."
    (Some "initialization").
Definition secondEntry : DeploymentLog :=
  newLog "d1" 101 "p0q1w8e2r" Info "Cloning repository https://github.com/acme/site..."
    (Some "clone").



(** *** C7: replay, then follow *)

(** The appends of a deployment, each run without interruption. *)
Definition appendAll (logs : list DeploymentLog) : list task :=
  flat_map (λ log, [AddLogBegin log; AddLogEnd true log]) logs.

Lemma run_app (s1 s2 : list task) (σ : service) : run (s1 ++ s2) σ = run s2 (run s1 σ).
Proof. apply foldl_app. Qed.

Lemma appendAll_follow (d : string) (observer : nat) (logs : list DeploymentLog) :
  ∀ σ : service,
  registrations observer (default [] (logSubscribers σ !! d)) = 1 →
  Forall (λ log, deploymentId log = d) logs →
  delivered observer (run (appendAll logs) σ) = delivered observer σ ++ logs.
Proof.
  induction logs as [|log logs IH]; intros σ Hreg Hd.
  - by rewrite app_nil_r.
  - apply Forall_cons in Hd as [Hlog Hd].
    change (run (appendAll (log :: logs)) σ)
      with (run (appendAll logs) (addLogEnd true log (addLogBegin log σ))).
    rewrite IH; [|done|done].
    rewrite addLog_delivered, Hlog, Hreg. by rewrite <- app_assoc.
Qed.

(** The intended behaviour, which the code does have while no append is
    under way: a stream opened on a deployment with entries in memory
    replays them in order and then follows the appends. *)
Lemma stream_replays_then_follows (σ : service) (d : string) (observer : nat)
    (existing logs : list DeploymentLog) :
  deploymentLogs σ !! d = Some existing → existing ≠ [] →
  registrations observer (default [] (logSubscribers σ !! d)) = 0 →
  Forall (λ log, deploymentId log = d) logs →
  delivered observer (run (StreamOpen d observer :: appendAll logs) σ)
  = delivered observer σ ++ existing ++ logs.
Proof.
  intros Hmem Hne Hreg Hd.
  change (run (StreamOpen d observer :: appendAll logs) σ)
    with (run (appendAll logs) (streamOpen d observer σ)).
  rewrite (appendAll_follow d); [|..|done].
  - rewrite app_assoc. f_equal. unfold streamOpen. rewrite Hmem.
    destruct existing as [|log rest]; [done|].
    rewrite (delivered_streams observer σ _ (LogMessage <$> log :: rest)).
    + by rewrite omap_logs.
    + cbn [streams subscribeToLogs]. rewrite replay_lookup.
      by destruct (decide (observer = observer)).
  - unfold streamOpen. rewrite Hmem. destruct existing as [|log rest]; [done|].
    cbn [logSubscribers subscribeToLogs]. rewrite lookup_insert_eq.
    cbn [default from_option Datatypes.id]. unfold registrations in *.
    rewrite filter_app, length_app, Hreg. rewrite filter_cons.
    by destruct (decide (observer = observer)).
Qed.


(** After a restart a client opens the stream; an append runs to its end
    before the stream's read of the log file returns. *)
Definition appendDuringLoad : list task :=
  [AddLogBegin firstEntry; AddLogEnd true firstEntry; Restart;
   StreamOpen "d1" 1; AddLogBegin secondEntry; AddLogEnd true secondEntry;
   StreamLoaded "d1" 1].


(** With the replay waiting for the disk, a live entry overtakes the
    replayed ones. *)
Example stream_load_after_append_reorders :
  delivered 1 (run appendDuringLoad start) = [secondEntry; firstEntry; secondEntry]
  ∧ appended "d1" appendDuringLoad = [firstEntry; secondEntry].
Proof. split; by vm_compute. Qed.

End LogBus.
